(** * uio: a byte-stream layer for microcontrollers

    Shallow embedding of the three revisions of the header found in the
    repository:

    - [Uio]     : [src/uio.hpp], the documented revision.  The classes
                  [streamerr], [streambuf] and [ostream] of
                  [src/unnamed/part_000] have the same text, so [Uio] is
                  their model as well;
    - [Part000] : [istream::operator>>] of [src/unnamed/part_000], the
                  only member that differs from [src/uio.hpp];
    - [Part001] : [src/unnamed/part_001], the revision without the
                  [_dump] mark, whose buffer operations are called
                  [getc], [getn], [putbyte], [putn] and [clear];
                  [Run001] holds the runs of its buffer operations.

    Conventions of the embedding.

    - [size_t] is an unsigned integer of [bits] bits, for an arbitrary
      positive [bits]; every arithmetic result is reduced by [to_size].
    - A pointer to a caller-owned array is the array's contents
      ([bytes]); the borrowed pointer [_buf] is an [option bytes], and
      [None] is [NULL].
    - A member function returns its C++ return value, the new contents of
      its out-parameter when it has one, and the new object.
    - A memory access outside the array it is aimed at, or through
      [NULL], is a fault: the function returns [None].  A [memcpy] of
      zero bytes touches nothing and never faults. *)

From Stdlib Require Import ZArith List Bool Lia.
From Stdlib.Strings Require Import Byte.
Import ListNotations.
Local Open Scope Z_scope.

Abbreviation bytes := (list byte).

(** ** [size_t] *)

Definition size_modulus (bits : positive) : Z := 2 ^ Z.pos bits.

Definition to_size (bits : positive) (z : Z) : Z := z mod size_modulus bits.

Definition is_size (bits : positive) (z : Z) : Prop :=
  0 <= z < size_modulus bits.

(** ** Memory *)

Module Mem.

(** [blit dst doff src soff n]: the array [dst] after
    [memcpy(dst + doff, src + soff, n)]. *)
Definition blit (dst : bytes) (doff : Z) (src : bytes) (soff n : Z)
  : option bytes :=
  if n =? 0 then Some dst
  else if (soff + n <=? Z.of_nat (length src))
          && (doff + n <=? Z.of_nat (length dst))
  then Some (firstn (Z.to_nat doff) dst
             ++ firstn (Z.to_nat n) (skipn (Z.to_nat soff) src)
             ++ skipn (Z.to_nat (doff + n)) dst)
  else None.

(** [memcpy(buf + off, s, n)] for the borrowed pointer [buf]. *)
Definition copy_in (buf : option bytes) (off : Z) (s : bytes) (n : Z)
  : option (option bytes) :=
  if n =? 0 then Some buf
  else match buf with
       | None => None
       | Some l => option_map Some (blit l off s 0 n)
       end.

(** [memcpy(s, buf + off, n)]: the new contents of [s]. *)
Definition copy_out (s : bytes) (buf : option bytes) (off n : Z)
  : option bytes :=
  if n =? 0 then Some s
  else match buf with
       | None => None
       | Some l => blit s 0 l off n
       end.

(** [*(buf + off)] read. *)
Definition load (buf : option bytes) (off : Z) : option byte :=
  match buf with
  | None => None
  | Some l => nth_error l (Z.to_nat off)
  end.

(** [*(buf + off) = c]. *)
Definition store (buf : option bytes) (off : Z) (c : byte)
  : option (option bytes) :=
  match buf with
  | None => None
  | Some l =>
      if off <? Z.of_nat (length l)
      then Some (Some (firstn (Z.to_nat off) l ++ c :: skipn (Z.to_nat (off + 1)) l))
      else None
  end.

(** [*(s + off) = c] for a caller-owned array. *)
Definition poke (s : bytes) (off : Z) (c : byte) : option bytes :=
  if off <? Z.of_nat (length s)
  then Some (firstn (Z.to_nat off) s ++ c :: skipn (Z.to_nat (off + 1)) s)
  else None.

(** [strlen(s)]: the index of the first NUL of [s]; running off the end of
    the array is a fault. *)
Fixpoint strlen (s : bytes) : option Z :=
  match s with
  | [] => None
  | c :: s' =>
      if Byte.eqb c x00 then Some 0
      else option_map Z.succ (strlen s')
  end.

Definition is_null (buf : option bytes) : bool :=
  match buf with
  | None => true
  | Some _ => false
  end.

End Mem.

(** ** [src/uio.hpp] *)

Module Uio.

Definition min (v1 v2 : Z) : Z := if v1 <? v2 then v1 else v2.

(** *** [class streamerr]

    The bit-field [_flags], one field per flag; [reserved] is four bits
    wide. *)
Record streamerr := {
  uninitialized : bool;
  overflow : bool;
  reserved : Z
}.

(** [streamerr::streamerr()]: [memset] to zero. *)
Definition streamerr_ctor : streamerr :=
  {| uninitialized := false; overflow := false; reserved := 0 |}.

(** [streamerr::any()]: the bytes of [_flags] or-ed together, as a [bool]. *)
Definition any (e : streamerr) : bool :=
  uninitialized e || overflow e || negb (reserved e =? 0).

(** [streamerr::clear()]. *)
Definition clear (e : streamerr) : streamerr := streamerr_ctor.

(** [streamerr::operator|=]. *)
Definition or_assign (e other : streamerr) : streamerr :=
  {| uninitialized := uninitialized e || uninitialized other;
     overflow := overflow e || overflow other;
     reserved := Z.lor (reserved e) (reserved other) |}.

(** [_flags.uninitialized = v]. *)
Definition set_uninitialized (e : streamerr) (v : bool) : streamerr :=
  {| uninitialized := v; overflow := overflow e; reserved := reserved e |}.

(** [_flags.overflow = v]. *)
Definition set_overflow (e : streamerr) (v : bool) : streamerr :=
  {| uninitialized := uninitialized e; overflow := v; reserved := reserved e |}.

(** *** [class streambuf] *)
Record streambuf := {
  _capacity : Z;
  _getpos : Z;
  _putpos : Z;
  _dump : bool;
  _buf : option bytes;
  _error : streamerr
}.

(** [streambuf::streambuf()]. *)
Definition streambuf_ctor : streambuf :=
  {| _capacity := 0; _getpos := 0; _putpos := 0; _dump := false;
     _buf := None;
     _error := set_uninitialized streamerr_ctor true |}.

(** The block under the comment [// check for dump], with which both
    [sputc] and [sputn] begin. *)
Definition check_for_dump (b : streambuf) : streambuf :=
  if _dump b
  then {| _capacity := _capacity b; _getpos := 0; _putpos := 0;
          _dump := false; _buf := _buf b; _error := _error b |}
  else b.

Section Width.

Variable bits : positive.
Local Abbreviation wrap := (to_size bits).

Definition in_avail (b : streambuf) : Z := wrap (_putpos b - _getpos b).

Definition size (b : streambuf) : Z := _putpos b.

Definition sgetc (b : streambuf) (c : byte) : option (Z * byte * streambuf) :=
  if wrap (_putpos b - _getpos b) <=? 0 then Some (0, c, b)
  else
    match Mem.load (_buf b) (_getpos b) with
    | None => None
    | Some v =>
        let g := wrap (_getpos b + 1) in
        Some (1, v,
              {| _capacity := _capacity b; _getpos := g; _putpos := _putpos b;
                 _dump := g =? _putpos b; _buf := _buf b;
                 _error := _error b |})
    end.

Definition sgetn (b : streambuf) (s : bytes) (len : Z)
  : option (Z * bytes * streambuf) :=
  let n := min (wrap (_putpos b - _getpos b)) len in
  match Mem.copy_out s (_buf b) (_getpos b) n with
  | None => None
  | Some s' =>
      let g := wrap (_getpos b + n) in
      Some (n, s',
            {| _capacity := _capacity b; _getpos := g; _putpos := _putpos b;
               _dump := g =? _putpos b; _buf := _buf b;
               _error := _error b |})
  end.

Definition sputc (b : streambuf) (c : byte) : option (Z * streambuf) :=
  let b := check_for_dump b in
  if wrap (_capacity b - _putpos b) <=? 0 then Some (0, b)
  else
    match Mem.store (_buf b) (_putpos b) c with
    | None => None
    | Some m =>
        Some (1,
              {| _capacity := _capacity b; _getpos := _getpos b;
                 _putpos := wrap (_putpos b + 1); _dump := _dump b;
                 _buf := m; _error := _error b |})
    end.

Definition sputn (b : streambuf) (s : bytes) (len : Z)
  : option (Z * streambuf) :=
  let b := check_for_dump b in
  let n := min (wrap (_capacity b - _putpos b)) len in
  match Mem.copy_in (_buf b) (_putpos b) s n with
  | None => None
  | Some m =>
      Some (n,
            {| _capacity := _capacity b; _getpos := _getpos b;
               _putpos := wrap (_putpos b + n); _dump := _dump b;
               _buf := m; _error := _error b |})
  end.

Definition purge (b : streambuf) : Z * streambuf :=
  let n := wrap (_putpos b - _getpos b) in
  (n,
   {| _capacity := _capacity b; _getpos := 0; _putpos := 0;
      _dump := _dump b; _buf := _buf b;
      _error := set_uninitialized (clear (_error b)) (Mem.is_null (_buf b)) |}).

End Width.

(** [streambuf::setbuf]; the returned [this] is the new object. *)
Definition setbuf (b : streambuf) (buf : option bytes) (capacity : Z)
  : streambuf :=
  {| _capacity := capacity; _getpos := 0; _putpos := 0; _dump := false;
     _buf := buf;
     _error := set_uninitialized (_error b) (Mem.is_null buf) |}.

(** [streambuf::dump]: the returned pointer and the new object. *)
Definition dump (b : streambuf) : option bytes * streambuf :=
  (_buf b,
   {| _capacity := _capacity b; _getpos := _getpos b; _putpos := _putpos b;
      _dump := true; _buf := _buf b; _error := _error b |}).

(** *** [class istream] *)
Record istream := {
  _ibuf : streambuf;
  _ierror : streamerr
}.

(** *** [class ostream] *)
Record ostream := {
  _obuf : streambuf;
  _oerror : streamerr
}.

(** The [else] branch shared by [operator<<], [put] and [write]:
    [_oerror._flags.overflow = true; _oerror |= _obuf._error]. *)
Definition flag_overflow (e : streamerr) (b : streambuf) : streamerr :=
  or_assign (set_overflow e true) (_error b).

(** The type of [streambuf::sgetn]: buffer, destination and length to
    count, new destination and new buffer. *)
Definition reader : Type :=
  streambuf -> bytes -> Z -> option (Z * bytes * streambuf).

Section Streams.

Variable bits : positive.

(** [istream::operator>>(char* s)]: the new contents of [s] and the new
    stream. *)
Definition operator_shr (i : istream) (s : bytes) : option (bytes * istream) :=
  let n := in_avail bits (_ibuf i) in
  match sgetn bits (_ibuf i) s n with
  | None => None
  | Some (_, s', b') =>
      match Mem.poke s' n x00 with
      | None => None
      | Some s'' => Some (s'', {| _ibuf := b'; _ierror := _ierror i |})
      end
  end.

(** The statements of [istream::operator>>] with the callee left open:
    [read] stands for the call [_ibuf.sgetn(s, n)] and may return any
    count.  With [sgetn] for [read] this is [operator_shr] itself (see
    [operator_shr_on_sgetn]); it serves to say what the operator's own
    statements do with a count, whichever count that is. *)
Definition operator_shr_on (read : reader) (i : istream) (s : bytes)
  : option (bytes * istream) :=
  let n := in_avail bits (_ibuf i) in
  match read (_ibuf i) s n with
  | None => None
  | Some (_, s', b') =>
      match Mem.poke s' n x00 with
      | None => None
      | Some s'' => Some (s'', {| _ibuf := b'; _ierror := _ierror i |})
      end
  end.

Definition gcount (i : istream) : Z := in_avail bits (_ibuf i).

(** [istream::get(char* buf)]. *)
Definition get (i : istream) (c : byte) : option (Z * byte * istream) :=
  match sgetc bits (_ibuf i) c with
  | None => None
  | Some (r, c', b') => Some (r, c', {| _ibuf := b'; _ierror := _ierror i |})
  end.

(** [istream::get(char* buf, size_t buflen)]. *)
Definition get_n (i : istream) (buf : bytes) (buflen : Z)
  : option (Z * bytes * istream) :=
  match sgetn bits (_ibuf i) buf buflen with
  | None => None
  | Some (r, buf', b') =>
      Some (r, buf', {| _ibuf := b'; _ierror := _ierror i |})
  end.

(** [ostream::write(const char* s, size_t n)]; the returned [*this] is the
    new stream. *)
Definition write (o : ostream) (s : bytes) (n : Z) : option ostream :=
  match sputn bits (_obuf o) s n with
  | None => None
  | Some (r, b') =>
      if n =? r
      then Some {| _obuf := b'; _oerror := _oerror o |}
      else Some {| _obuf := b'; _oerror := flag_overflow (_oerror o) b' |}
  end.

(** [ostream::put(char c)]. *)
Definition put (o : ostream) (c : byte) : option ostream :=
  match sputc bits (_obuf o) c with
  | None => None
  | Some (r, b') =>
      if negb (r =? 0)
      then Some {| _obuf := b'; _oerror := _oerror o |}
      else Some {| _obuf := b'; _oerror := flag_overflow (_oerror o) b' |}
  end.

(** [ostream::operator<<(const char* s)]. *)
Definition operator_shl (o : ostream) (s : bytes) : option ostream :=
  match Mem.strlen s with
  | None => None
  | Some n => write o s (to_size bits n)
  end.

End Streams.

End Uio.

(** ** [src/unnamed/part_000]

    Only [istream::operator>>] differs from [src/uio.hpp]: it compares the
    count returned by [sgetn] with the count it asked for. *)

Module Part000.

Import Uio.

Section Streams.

Variable bits : positive.

Definition operator_shr (i : istream) (s : bytes) : option (bytes * istream) :=
  let n := in_avail bits (_ibuf i) in
  match sgetn bits (_ibuf i) s n with
  | None => None
  | Some (r, s', b') =>
      let e :=
        if negb (n =? r)
        then or_assign (set_overflow (_ierror i) true) (_error b')
        else _ierror i in
      match Mem.poke s' n x00 with
      | None => None
      | Some s'' => Some (s'', {| _ibuf := b'; _ierror := e |})
      end
  end.

(** The same statements with the callee left open, as
    [Uio.operator_shr_on]. *)
Definition operator_shr_on (read : reader) (i : istream) (s : bytes)
  : option (bytes * istream) :=
  let n := in_avail bits (_ibuf i) in
  match read (_ibuf i) s n with
  | None => None
  | Some (r, s', b') =>
      let e :=
        if negb (n =? r)
        then or_assign (set_overflow (_ierror i) true) (_error b')
        else _ierror i in
      match Mem.poke s' n x00 with
      | None => None
      | Some s'' => Some (s'', {| _ibuf := b'; _ierror := e |})
      end
  end.

End Streams.

End Part000.

(** ** [src/unnamed/part_001]

    The revision without the [_dump] mark.  Every transfer tests
    [_buf == NULL] itself and raises [uninitialized] there; neither the
    constructor nor [setbuf] writes the error register. *)

Module Part001.

Definition min (v1 v2 : Z) : Z := if v1 <? v2 then v1 else v2.

Record streamerr := {
  uninitialized : bool;
  overflow : bool
}.

Definition streamerr_ctor : streamerr :=
  {| uninitialized := false; overflow := false |}.

Definition any (e : streamerr) : bool := uninitialized e || overflow e.

(** [streamerr::clear()]. *)
Definition streamerr_clear (e : streamerr) : streamerr := streamerr_ctor.

Definition or_assign (e other : streamerr) : streamerr :=
  {| uninitialized := uninitialized e || uninitialized other;
     overflow := overflow e || overflow other |}.

Definition set_uninitialized (e : streamerr) (v : bool) : streamerr :=
  {| uninitialized := v; overflow := overflow e |}.

Definition set_overflow (e : streamerr) (v : bool) : streamerr :=
  {| uninitialized := uninitialized e; overflow := v |}.

Record streambuf := {
  _capacity : Z;
  _getpos : Z;
  _putpos : Z;
  _buf : option bytes;
  _error : streamerr
}.

Definition streambuf_ctor : streambuf :=
  {| _capacity := 0; _getpos := 0; _putpos := 0; _buf := None;
     _error := streamerr_ctor |}.

(** [_error._flags.uninitialized = true], the statement of every
    [_buf == NULL] branch. *)
Definition raise_uninitialized (b : streambuf) : streambuf :=
  {| _capacity := _capacity b; _getpos := _getpos b; _putpos := _putpos b;
     _buf := _buf b; _error := set_uninitialized (_error b) true |}.

Section Width.

Variable bits : positive.
Local Abbreviation wrap := (to_size bits).

Definition in_avail (b : streambuf) : Z := wrap (_putpos b - _getpos b).

Definition getc (b : streambuf) (c : byte) : option (Z * byte * streambuf) :=
  if Mem.is_null (_buf b) then Some (0, c, raise_uninitialized b)
  else if wrap (_putpos b - _getpos b) <=? 0 then Some (0, c, b)
  else
    match Mem.load (_buf b) (_getpos b) with
    | None => None
    | Some v =>
        Some (1, v,
              {| _capacity := _capacity b; _getpos := wrap (_getpos b + 1);
                 _putpos := _putpos b; _buf := _buf b; _error := _error b |})
    end.

Definition getn (b : streambuf) (s : bytes) (len : Z)
  : option (Z * bytes * streambuf) :=
  if Mem.is_null (_buf b) then Some (0, s, raise_uninitialized b)
  else
    let n := min (wrap (_putpos b - _getpos b)) len in
    match Mem.copy_out s (_buf b) (_getpos b) n with
    | None => None
    | Some s' =>
        Some (n, s',
              {| _capacity := _capacity b; _getpos := wrap (_getpos b + n);
                 _putpos := _putpos b; _buf := _buf b; _error := _error b |})
    end.

Definition putbyte (b : streambuf) (c : byte) : option (Z * streambuf) :=
  if Mem.is_null (_buf b) then Some (0, raise_uninitialized b)
  else if wrap (_capacity b - _putpos b) <=? 0 then Some (0, b)
  else
    match Mem.store (_buf b) (_putpos b) c with
    | None => None
    | Some m =>
        Some (1,
              {| _capacity := _capacity b; _getpos := _getpos b;
                 _putpos := wrap (_putpos b + 1); _buf := m;
                 _error := _error b |})
    end.

Definition putn (b : streambuf) (s : bytes) (len : Z)
  : option (Z * streambuf) :=
  if Mem.is_null (_buf b) then Some (0, raise_uninitialized b)
  else
    let n := min (wrap (_capacity b - _putpos b)) len in
    match Mem.copy_in (_buf b) (_putpos b) s n with
    | None => None
    | Some m =>
        Some (n,
              {| _capacity := _capacity b; _getpos := _getpos b;
                 _putpos := wrap (_putpos b + n); _buf := m;
                 _error := _error b |})
    end.

(** [streambuf::clear()]. *)
Definition clear (b : streambuf) : Z * streambuf :=
  let n := wrap (_putpos b - _getpos b) in
  (n,
   {| _capacity := _capacity b; _getpos := 0; _putpos := 0;
      _buf := _buf b; _error := streamerr_clear (_error b) |}).

End Width.

Definition setbuf (b : streambuf) (buf : option bytes) (capacity : Z)
  : streambuf :=
  {| _capacity := capacity; _getpos := 0; _putpos := 0; _buf := buf;
     _error := _error b |}.

(** [streambuf::data()]. *)
Definition data (b : streambuf) : option bytes := _buf b.

Record istream := {
  _ibuf : streambuf;
  _ierror : streamerr
}.

Record ostream := {
  _obuf : streambuf;
  _oerror : streamerr
}.

(** The body of every [if (n != ...)] of the two stream classes:
    [overflow = true] in the stream's register, then [|=] with the
    buffer's. *)
Definition flag_overflow (e : streamerr) (b : streambuf) : streamerr :=
  or_assign (set_overflow e true) (_error b).

Section Streams.

Variable bits : positive.

(** [istream::operator>>(char* s)]. *)
Definition operator_shr (i : istream) (s : bytes) : option (bytes * istream) :=
  let n := in_avail bits (_ibuf i) in
  match getn bits (_ibuf i) s n with
  | None => None
  | Some (r, s', b') =>
      let e := if negb (n =? r) then flag_overflow (_ierror i) b'
               else _ierror i in
      match Mem.poke s' n x00 with
      | None => None
      | Some s'' => Some (s'', {| _ibuf := b'; _ierror := e |})
      end
  end.

(** [istream::gcount(const char* s)]; the argument is not used. *)
Definition gcount (i : istream) (s : bytes) : Z := in_avail bits (_ibuf i).

(** [istream::get(char* buf)]. *)
Definition get (i : istream) (c : byte) : option (Z * byte * istream) :=
  match getc bits (_ibuf i) c with
  | None => None
  | Some (r, c', b') => Some (r, c', {| _ibuf := b'; _ierror := _ierror i |})
  end.

(** [istream::get(char* buf, size_t buflen)]. *)
Definition get_n (i : istream) (buf : bytes) (buflen : Z)
  : option (Z * bytes * istream) :=
  match getn bits (_ibuf i) buf buflen with
  | None => None
  | Some (r, buf', b') =>
      Some (r, buf', {| _ibuf := b'; _ierror := _ierror i |})
  end.

(** [ostream::write(const char* s, size_t n)]. *)
Definition write (o : ostream) (s : bytes) (n : Z) : option ostream :=
  match putn bits (_obuf o) s n with
  | None => None
  | Some (r, b') =>
      if negb (n =? r)
      then Some {| _obuf := b'; _oerror := flag_overflow (_oerror o) b' |}
      else Some {| _obuf := b'; _oerror := _oerror o |}
  end.

(** [ostream::put(char c)]. *)
Definition put (o : ostream) (c : byte) : option ostream :=
  match putbyte bits (_obuf o) c with
  | None => None
  | Some (r, b') =>
      if negb (1 =? r)
      then Some {| _obuf := b'; _oerror := flag_overflow (_oerror o) b' |}
      else Some {| _obuf := b'; _oerror := _oerror o |}
  end.

(** [ostream::operator<<(const char* s)]. *)
Definition operator_shl (o : ostream) (s : bytes) : option ostream :=
  match Mem.strlen s with
  | None => None
  | Some n => write o s (to_size bits n)
  end.

End Streams.

End Part001.

(** ** Runs of the public operations of [Uio.streambuf] *)

Import Uio.

Inductive op :=
| Sgetc (c : byte)
| Sgetn (s : bytes) (len : Z)
| Sputc (c : byte)
| Sputn (s : bytes) (len : Z)
| Purge
| Setbuf (buf : option bytes) (capacity : Z)
| Dump.

(** The [size_t] arguments of a call are [size_t] values. *)
Definition args_ok (bits : positive) (o : op) : Prop :=
  match o with
  | Sgetn _ len | Sputn _ len => is_size bits len
  | Setbuf _ capacity => is_size bits capacity
  | _ => True
  end.

(** The object after one call; [None] when the call faults. *)
Definition exec (bits : positive) (b : streambuf) (o : op) : option streambuf :=
  match o with
  | Sgetc c => option_map snd (sgetc bits b c)
  | Sgetn s len => option_map snd (sgetn bits b s len)
  | Sputc c => option_map snd (sputc bits b c)
  | Sputn s len => option_map snd (sputn bits b s len)
  | Purge => Some (snd (purge bits b))
  | Setbuf buf capacity => Some (setbuf b buf capacity)
  | Dump => Some (snd (dump b))
  end.

(** The states a program can bring a buffer into: it constructs the
    object and then calls public members, none of which faults. *)
Inductive reachable (bits : positive) : streambuf -> Prop :=
| reach_ctor : reachable bits streambuf_ctor
| reach_step b o b' :
    reachable bits b -> args_ok bits o -> exec bits b o = Some b' ->
    reachable bits b'.

(** What every reachable state satisfies (see [reachable_inv]). *)
Record inv (bits : positive) (b : streambuf) : Prop := {
  inv_capacity : is_size bits (_capacity b);
  inv_cursors : 0 <= _getpos b <= _putpos b /\ _putpos b <= _capacity b;
  inv_dump : _getpos b = _putpos b -> 0 < _putpos b -> _dump b = true;
  inv_null : _buf b = None ->
             _putpos b = 0 /\ uninitialized (_error b) = true;
  inv_store : forall l, _buf b = Some l -> _putpos b <= Z.of_nat (length l)
}.

(** The buffer borrows an array at least [_capacity] bytes long. *)
Definition bound (b : streambuf) : Prop :=
  exists l, _buf b = Some l /\ _capacity b <= Z.of_nat (length l).

(** A run of calls, stopped by the first fault. *)
Fixpoint run (bits : positive) (b : streambuf) (os : list op)
  : option streambuf :=
  match os with
  | [] => Some b
  | o :: os' =>
      match exec bits b o with
      | None => None
      | Some b' => run bits b' os'
      end
  end.

(** A sample run on a four-byte array: bind, write ["ABC"], read one
    byte, take the view of the contents, read one more byte. *)
Definition sample_calls : list op :=
  [Setbuf (Some [x00; x00; x00; x00]) 4; Sputn [x41; x42; x43] 3;
   Sgetc x00; Dump; Sgetn [x00; x00] 1].

(** Sample states of a buffer on a four-byte array, with 16-bit
    [size_t]: filled by [setbuf] and [sputn] of ["ABCD"]; the same after
    [sgetn] of four bytes; after [setbuf] and [sputn] of ["AB"]; and
    the latter after [dump]. *)
Definition sample_error : streamerr :=
  {| uninitialized := false; overflow := false; reserved := 0 |}.

Definition sample_full : streambuf :=
  {| _capacity := 4; _getpos := 0; _putpos := 4; _dump := false;
     _buf := Some [x41; x42; x43; x44]; _error := sample_error |}.

Definition sample_drained : streambuf :=
  {| _capacity := 4; _getpos := 4; _putpos := 4; _dump := true;
     _buf := Some [x41; x42; x43; x44]; _error := sample_error |}.

Definition sample_half : streambuf :=
  {| _capacity := 4; _getpos := 0; _putpos := 2; _dump := false;
     _buf := Some [x41; x42; x00; x00]; _error := sample_error |}.

Definition sample_viewed : streambuf :=
  {| _capacity := 4; _getpos := 0; _putpos := 2; _dump := true;
     _buf := Some [x41; x42; x00; x00]; _error := sample_error |}.


(** The reads among the public operations. *)
Definition is_read (o : op) : Prop :=
  match o with
  | Sgetc _ | Sgetn _ _ => True
  | _ => False
  end.

(** The queued bytes: those between the two cursors. *)
Definition contents (bits : positive) (b : streambuf) : bytes :=
  match _buf b with
  | None => []
  | Some l =>
      firstn (Z.to_nat (in_avail bits b)) (skipn (Z.to_nat (_getpos b)) l)
  end.

(** The object after a read that takes every queued byte. *)
Definition drained (b : streambuf) : streambuf :=
  {| _capacity := _capacity b; _getpos := _putpos b; _putpos := _putpos b;
     _dump := true; _buf := _buf b; _error := _error b |}.

(** [b] is in the state that waits for the rewind: it is what [dump()]
    left of [b0], or what a read that emptied the queue of a reachable
    [b0] left of it. *)
Inductive drained_pending_rewind (bits : positive) (b0 : streambuf)
  : streambuf -> Prop :=
| pending_dump : drained_pending_rewind bits b0 (snd (dump b0))
| pending_read o b :
    reachable bits b0 -> is_read o -> args_ok bits o ->
    0 < in_avail bits b0 -> exec bits b0 o = Some b ->
    in_avail bits b = 0 ->
    drained_pending_rewind bits b0 b.

(** The object after the rewind that [sputc] and [sputn] start with when
    [_dump] is set. *)
Definition rewound (b : streambuf) : streambuf :=
  {| _capacity := _capacity b; _getpos := 0; _putpos := 0; _dump := false;
     _buf := _buf b; _error := _error b |}.

(** ** Runs of the public operations of [Part001.streambuf] *)

Module Run001.

Inductive op :=
| Getc (c : byte)
| Getn (s : bytes) (len : Z)
| Putbyte (c : byte)
| Putn (s : bytes) (len : Z)
| Clear
| Setbuf (buf : option bytes) (capacity : Z).

Definition args_ok (bits : positive) (o : op) : Prop :=
  match o with
  | Getn _ len | Putn _ len => is_size bits len
  | Setbuf _ capacity => is_size bits capacity
  | _ => True
  end.

Definition exec (bits : positive) (b : Part001.streambuf) (o : op)
  : option Part001.streambuf :=
  match o with
  | Getc c => option_map snd (Part001.getc bits b c)
  | Getn s len => option_map snd (Part001.getn bits b s len)
  | Putbyte c => option_map snd (Part001.putbyte bits b c)
  | Putn s len => option_map snd (Part001.putn bits b s len)
  | Clear => Some (snd (Part001.clear bits b))
  | Setbuf buf capacity => Some (Part001.setbuf b buf capacity)
  end.

Inductive reachable (bits : positive) : Part001.streambuf -> Prop :=
| reach_ctor : reachable bits Part001.streambuf_ctor
| reach_step b o b' :
    reachable bits b -> args_ok bits o -> exec bits b o = Some b' ->
    reachable bits b'.

Fixpoint run (bits : positive) (b : Part001.streambuf) (os : list op)
  : option Part001.streambuf :=
  match os with
  | [] => Some b
  | o :: os' =>
      match exec bits b o with
      | None => None
      | Some b' => run bits b' os'
      end
  end.

(** What every reachable state satisfies. *)
Record inv (bits : positive) (b : Part001.streambuf) : Prop := {
  inv_capacity : is_size bits (Part001._capacity b);
  inv_cursors : 0 <= Part001._getpos b <= Part001._putpos b
                /\ Part001._putpos b <= Part001._capacity b;
  inv_null : Part001._buf b = None -> Part001._putpos b = 0;
  inv_store : forall l, Part001._buf b = Some l ->
                        Part001._putpos b <= Z.of_nat (length l)
}.

(** The queued bytes. *)
Definition contents (bits : positive) (b : Part001.streambuf) : bytes :=
  match Part001._buf b with
  | None => []
  | Some l =>
      firstn (Z.to_nat (Part001.in_avail bits b))
             (skipn (Z.to_nat (Part001._getpos b)) l)
  end.

Definition bound (b : Part001.streambuf) : Prop :=
  exists l, Part001._buf b = Some l
            /\ Part001._capacity b <= Z.of_nat (length l).

End Run001.

(** Every flag set in [e] is set in [e']. *)
Definition flags_le (e e' : streamerr) : Prop :=
  (uninitialized e = true -> uninitialized e' = true)
  /\ (overflow e = true -> overflow e' = true)
  /\ (forall k, Z.testbit (reserved e) k = true ->
                Z.testbit (reserved e') k = true).

(** No byte of [s] is the terminator. *)
Definition no_nul (s : bytes) : Prop := Forall (fun c => c <> x00) s.

(** Sample states for the properties below: an empty buffer on a
    four-byte array, a full one of [part_001], and a stream on the
    constructed buffer. *)
Definition sample_fresh : streambuf :=
  {| _capacity := 4; _getpos := 0; _putpos := 0; _dump := false;
     _buf := Some [x00; x00; x00; x00]; _error := sample_error |}.

Definition sample001_full : Part001.streambuf :=
  {| Part001._capacity := 4; Part001._getpos := 0; Part001._putpos := 4;
     Part001._buf := Some [x41; x42; x43; x44];
     Part001._error := Part001.streamerr_ctor |}.

Definition sample001_drained : Part001.streambuf :=
  {| Part001._capacity := 4; Part001._getpos := 4; Part001._putpos := 4;
     Part001._buf := Some [x41; x42; x43; x44];
     Part001._error := Part001.streamerr_ctor |}.

(** ** Lemmas on [size_t] and on memory *)

Lemma size_modulus_pos bits : 0 < size_modulus bits.
Proof. unfold size_modulus. apply Z.pow_pos_nonneg; lia. Qed.

Lemma to_size_small bits z : is_size bits z -> to_size bits z = z.
Proof. unfold is_size, to_size. intros H. now apply Z.mod_small. Qed.

Lemma to_size_range bits z : is_size bits (to_size bits z).
Proof.
  unfold is_size, to_size. apply Z.mod_pos_bound, size_modulus_pos.
Qed.

Lemma min_spec v1 v2 :
  (v1 < v2 /\ Uio.min v1 v2 = v1) \/ (v2 <= v1 /\ Uio.min v1 v2 = v2).
Proof. unfold Uio.min. destruct (Z.ltb_spec v1 v2); auto. Qed.

Lemma blit_length dst doff src soff n d' :
  0 <= doff -> 0 <= soff -> 0 <= n ->
  Mem.blit dst doff src soff n = Some d' -> length d' = length dst.
Proof.
  unfold Mem.blit. intros Hd Hs Hn.
  destruct (Z.eqb_spec n 0); [now intros [= <-]|].
  destruct (Z.leb_spec (soff + n) (Z.of_nat (length src))); simpl; [|discriminate].
  destruct (Z.leb_spec (doff + n) (Z.of_nat (length dst))); simpl; [|discriminate].
  intros [= <-].
  rewrite !length_app, !length_firstn, !length_skipn. lia.
Qed.

Lemma blit_whole_prefix dst src n :
  0 <= n -> n <= Z.of_nat (length src) -> n <= Z.of_nat (length dst) ->
  Mem.blit dst 0 src 0 n
  = Some (firstn (Z.to_nat n) src ++ skipn (Z.to_nat n) dst).
Proof.
  intros Hn Hs Hd. unfold Mem.blit.
  destruct (Z.eqb_spec n 0) as [->|Hne]; [reflexivity|].
  destruct (Z.leb_spec (0 + n) (Z.of_nat (length src))); [|lia].
  destruct (Z.leb_spec (0 + n) (Z.of_nat (length dst))); [|lia].
  reflexivity.
Qed.

(** ** The invariant of the reachable states *)

Ltac size_small :=
  repeat match goal with
  | |- context [to_size ?w ?z] =>
      rewrite (to_size_small w z) by (unfold is_size in *; lia)
  | H : context [to_size ?w ?z] |- _ =>
      rewrite (to_size_small w z) in H by (unfold is_size in *; lia)
  end.

Ltac split_inv H :=
  let Hc := fresh "Hcap" in let Hg := fresh "Hget" in
  let Hp := fresh "Hput" in let Hd := fresh "Hdump" in
  let Hn := fresh "Hnull" in let Hs := fresh "Hstore" in
  destruct H as [Hc [Hg Hp] Hd Hn Hs].

Lemma store_some buf off c m :
  0 <= off -> Mem.store buf off c = Some m ->
  exists l l', buf = Some l /\ m = Some l' /\ length l' = length l
               /\ off < Z.of_nat (length l).
Proof.
  intros Ho. unfold Mem.store. destruct buf as [l|]; [|discriminate].
  destruct (Z.ltb_spec off (Z.of_nat (length l))); [|discriminate].
  intros [= <-]. eexists _, _. repeat split; auto.
  rewrite length_app, length_firstn. simpl. rewrite length_skipn. lia.
Qed.

Lemma copy_in_some buf off s n m :
  0 <= off -> 0 <= n -> Mem.copy_in buf off s n = Some m ->
  (n = 0 /\ m = buf) \/
  (exists l l', buf = Some l /\ m = Some l' /\ length l' = length l
                /\ off + n <= Z.of_nat (length l)).
Proof.
  intros Ho Hn. unfold Mem.copy_in. destruct (Z.eqb_spec n 0) as [->|Hne].
  - intros [= <-]. auto.
  - destruct buf as [l|]; [|discriminate].
    destruct (Mem.blit l off s 0 n) as [l'|] eqn:Eb; [|discriminate].
    intros [= <-]. right. exists l, l'. repeat split; auto.
    + apply (blit_length l off s 0 n l'); auto; lia.
    + unfold Mem.blit in Eb. destruct (Z.eqb_spec n 0); [lia|].
      destruct (0 + n <=? _); simpl in Eb; [|discriminate].
      destruct (Z.leb_spec (off + n) (Z.of_nat (length l))); [lia|discriminate].
Qed.

Lemma inv_ctor bits : inv bits streambuf_ctor.
Proof.
  pose proof (size_modulus_pos bits).
  constructor; simpl; unfold is_size; try lia; auto; discriminate.
Qed.

Lemma check_for_dump_inv bits b : inv bits b -> inv bits (check_for_dump b).
Proof.
  intros H. unfold check_for_dump. destruct (_dump b) eqn:E; [|exact H].
  split_inv H. constructor; simpl; unfold is_size in *; try lia.
  intros Hb. split; [reflexivity|]. now apply Hnull.
Qed.

Lemma sgetc_inv bits b c r v b' :
  inv bits b -> sgetc bits b c = Some (r, v, b') -> inv bits b'.
Proof.
  intros H. unfold sgetc.
  destruct (Z.leb_spec (to_size bits (_putpos b - _getpos b)) 0) as [Hle|Hlt].
  - now intros [= <- <- <-].
  - destruct (Mem.load (_buf b) (_getpos b)) eqn:El; [|discriminate].
    intros [= <- <- <-]. split_inv H. size_small.
    constructor; simpl; unfold is_size in *; try lia; [|exact Hstore].
    intros Hb. rewrite Hb in El. discriminate.
Qed.

Lemma sgetn_inv bits b s len r s' b' :
  inv bits b -> is_size bits len ->
  sgetn bits b s len = Some (r, s', b') -> inv bits b'.
Proof.
  intros H Hlen. unfold sgetn.
  destruct (Mem.copy_out s (_buf b) (_getpos b) _) eqn:Ec; [|discriminate].
  intros [= <- <- <-]. split_inv H. size_small.
  destruct (min_spec (_putpos b - _getpos b) len) as [[Hm ->]|[Hm ->]];
    size_small;
    (constructor; simpl; unfold is_size in *; try lia;
     [exact Hnull | exact Hstore]).
Qed.

Lemma sputc_inv bits b c r b' :
  inv bits b -> sputc bits b c = Some (r, b') -> inv bits b'.
Proof.
  intros H. apply check_for_dump_inv in H. unfold sputc.
  set (b1 := check_for_dump b) in *. clearbody b1.
  destruct (Z.leb_spec (to_size bits (_capacity b1 - _putpos b1)) 0) as [Hle|Hlt].
  - now intros [= <- <-].
  - destruct (Mem.store (_buf b1) (_putpos b1) c) as [m|] eqn:Es; [|discriminate].
    intros [= <- <-]. split_inv H. size_small.
    apply store_some in Es; [|lia].
    destruct Es as (l & l' & Hb & -> & Hlen & Hoff).
    constructor; simpl; unfold is_size in *; try lia.
    + discriminate.
    + intros ? [= <-]. lia.
Qed.

Lemma sputn_inv bits b s len r b' :
  inv bits b -> is_size bits len ->
  sputn bits b s len = Some (r, b') -> inv bits b'.
Proof.
  intros H Hlen. apply check_for_dump_inv in H. unfold sputn.
  set (b1 := check_for_dump b) in *. clearbody b1.
  destruct (Mem.copy_in (_buf b1) (_putpos b1) s _) as [m|] eqn:Ec; [|discriminate].
  intros [= <- <-]. split_inv H. size_small.
  assert (Hn : 0 <= Uio.min (_capacity b1 - _putpos b1) len
               /\ Uio.min (_capacity b1 - _putpos b1) len
                  <= _capacity b1 - _putpos b1).
  { destruct (min_spec (_capacity b1 - _putpos b1) len) as [[? ->]|[? ->]];
      unfold is_size in *; lia. }
  set (n := Uio.min (_capacity b1 - _putpos b1) len) in *. clearbody n.
  size_small.
  apply copy_in_some in Ec; try lia.
  destruct Ec as [[-> ->]|(l & l' & Hb & -> & Hl & Hoff)].
  - rewrite Z.add_0_r.
    constructor; simpl; unfold is_size in *; try lia; auto.
  - constructor; simpl; unfold is_size in *; try lia.
    + intros Hg Hpos. apply Hdump; lia.
    + discriminate.
    + intros ? [= <-]. lia.
Qed.

Lemma purge_inv bits b : inv bits b -> inv bits (snd (purge bits b)).
Proof.
  intros H. split_inv H.
  constructor; simpl; unfold is_size in *; try lia.
  intros ->. auto.
Qed.

Lemma setbuf_inv bits b buf capacity :
  is_size bits capacity -> inv bits (setbuf b buf capacity).
Proof.
  intros H. constructor; simpl; unfold is_size in *; try lia.
  intros ->. auto.
Qed.

Lemma dump_inv bits b : inv bits b -> inv bits (snd (dump b)).
Proof.
  intros H. split_inv H. constructor; simpl; auto.
Qed.

Lemma exec_inv bits b o b' :
  inv bits b -> args_ok bits o -> exec bits b o = Some b' -> inv bits b'.
Proof.
  intros H Ha. destruct o; simpl in *.
  - destruct (sgetc bits b c) as [[[r v] b1]|] eqn:E; [|discriminate].
    intros [= <-]. eapply sgetc_inv; eauto.
  - destruct (sgetn bits b s len) as [[[r v] b1]|] eqn:E; [|discriminate].
    intros [= <-]. eapply sgetn_inv; eauto.
  - destruct (sputc bits b c) as [[r b1]|] eqn:E; [|discriminate].
    intros [= <-]. eapply sputc_inv; eauto.
  - destruct (sputn bits b s len) as [[r b1]|] eqn:E; [|discriminate].
    intros [= <-]. eapply sputn_inv; eauto.
  - intros [= <-]. now apply purge_inv.
  - intros [= <-]. now apply setbuf_inv.
  - intros [= <-]. now apply dump_inv.
Qed.

Lemma reachable_inv bits b : reachable bits b -> inv bits b.
Proof.
  induction 1 as [|b o b' _ IH Ha He].
  - apply inv_ctor.
  - eapply exec_inv; eauto.
Qed.

Lemma run_reachable bits os : forall b b',
  reachable bits b -> Forall (args_ok bits) os -> run bits b os = Some b' ->
  reachable bits b'.
Proof.
  induction os as [|o os IH]; simpl; intros b b' Hr Ha.
  - now intros [= <-].
  - inversion Ha as [|? ? Ho Hos]; subst.
    destruct (exec bits b o) as [b1|] eqn:E; [|discriminate].
    intros Hrun. apply (IH b1 b'); auto.
    now apply (reach_step bits b o b1).
Qed.

(** ** Lemmas on the transfers *)

Lemma copy_in_prefix l s n :
  0 <= n -> n <= Z.of_nat (length s) -> n <= Z.of_nat (length l) ->
  Mem.copy_in (Some l) 0 s n
  = Some (Some (firstn (Z.to_nat n) s ++ skipn (Z.to_nat n) l)).
Proof.
  intros Hn Hs Hl. unfold Mem.copy_in.
  destruct (Z.eqb_spec n 0) as [->|Hne]; [reflexivity|].
  now rewrite blit_whole_prefix.
Qed.

Lemma copy_in_ok l off s n :
  0 <= off -> 0 <= n -> n <= Z.of_nat (length s) ->
  off + n <= Z.of_nat (length l) ->
  exists l', Mem.copy_in (Some l) off s n = Some (Some l')
             /\ length l' = length l.
Proof.
  intros Ho Hn Hs Hl. unfold Mem.copy_in.
  destruct (Z.eqb_spec n 0) as [->|Hne]; [now exists l|].
  destruct (Mem.blit l off s 0 n) as [l'|] eqn:Eb.
  - exists l'. split; [reflexivity|].
    apply (blit_length l off s 0 n l'); auto; lia.
  - exfalso. unfold Mem.blit in Eb.
    destruct (Z.eqb_spec n 0); [lia|].
    destruct (Z.leb_spec (0 + n) (Z.of_nat (length s))); [|lia].
    destruct (Z.leb_spec (off + n) (Z.of_nat (length l))); [|lia].
    discriminate.
Qed.

Lemma copy_out_ok s l off n :
  0 <= off -> 0 <= n -> off + n <= Z.of_nat (length l) ->
  n <= Z.of_nat (length s) ->
  Mem.copy_out s (Some l) off n
  = Some (firstn (Z.to_nat n) (skipn (Z.to_nat off) l)
          ++ skipn (Z.to_nat n) s).
Proof.
  intros Ho Hn Hl Hs. unfold Mem.copy_out, Mem.blit.
  destruct (Z.eqb_spec n 0) as [->|Hne]; [reflexivity|].
  destruct (Z.leb_spec (off + n) (Z.of_nat (length l))); [|lia].
  destruct (Z.leb_spec (0 + n) (Z.of_nat (length s))); [|lia].
  reflexivity.
Qed.

Lemma firstn_all_app {A} (l l' : list A) : firstn (length l) (l ++ l') = l.
Proof.
  rewrite firstn_app, Nat.sub_diag, firstn_all. simpl. apply app_nil_r.
Qed.

(** The round trip through [Uio.streambuf]. *)
Lemma uio_roundtrip bits b0 (storage msg dest : bytes) c :
  is_size bits c -> c <= Z.of_nat (length storage) ->
  Z.of_nat (length msg) <= c ->
  (length msg <= length dest)%nat ->
  let n := Z.of_nat (length msg) in
  exists b1 b2,
    sputn bits (setbuf b0 (Some storage) c) msg n = Some (n, b1) /\
    sgetn bits b1 dest n = Some (n, msg ++ skipn (length msg) dest, b2).
Proof.
  intros Hc Hst Hmsg Hdest n.
  assert (Hn : 0 <= n <= c) by (unfold n; lia).
  assert (Hnat : Z.to_nat n = length msg) by apply Nat2Z.id.
  assert (Hlen : n = Z.of_nat (length msg)) by reflexivity.
  clearbody n.
  unfold sputn, setbuf, check_for_dump; simpl.
  rewrite Z.sub_0_r. size_small.
  destruct (min_spec c n) as [[Hlt Hm]|[Hle Hm]]; [lia|]. rewrite Hm.
  rewrite copy_in_prefix by lia.
  eexists _, _. split; [reflexivity|].
  unfold sgetn; simpl. size_small. rewrite Z.sub_0_r.
  destruct (min_spec n n) as [[? Hm']|[? Hm']]; [lia|]. rewrite Hm'.
  rewrite Hnat, firstn_all.
  rewrite copy_out_ok; try lia.
  - simpl. rewrite Hnat, firstn_all_app. reflexivity.
  - rewrite length_app, length_skipn. lia.
Qed.

(** The round trip through [Part001.streambuf]. *)
Lemma part001_roundtrip bits b0 (storage msg dest : bytes) c :
  is_size bits c -> c <= Z.of_nat (length storage) ->
  Z.of_nat (length msg) <= c ->
  (length msg <= length dest)%nat ->
  let n := Z.of_nat (length msg) in
  exists b1 b2,
    Part001.putn bits (Part001.setbuf b0 (Some storage) c) msg n
    = Some (n, b1) /\
    Part001.getn bits b1 dest n
    = Some (n, msg ++ skipn (length msg) dest, b2).
Proof.
  intros Hc Hst Hmsg Hdest n.
  assert (Hn : 0 <= n <= c) by (unfold n; lia).
  assert (Hnat : Z.to_nat n = length msg) by apply Nat2Z.id.
  assert (Hlen : n = Z.of_nat (length msg)) by reflexivity.
  clearbody n.
  unfold Part001.putn, Part001.setbuf; simpl.
  rewrite Z.sub_0_r. size_small.
  change Part001.min with Uio.min.
  destruct (min_spec c n) as [[Hlt Hm]|[Hle Hm]]; [lia|]. rewrite Hm.
  rewrite copy_in_prefix by lia.
  eexists _, _. split; [reflexivity|].
  unfold Part001.getn; simpl. size_small. rewrite Z.sub_0_r.
  change Part001.min with Uio.min.
  destruct (min_spec n n) as [[? Hm']|[? Hm']]; [lia|]. rewrite Hm'.
  rewrite Hnat, firstn_all.
  rewrite copy_out_ok; try lia.
  - simpl. rewrite Hnat, firstn_all_app. reflexivity.
  - rewrite length_app, length_skipn. lia.
Qed.


Lemma check_for_dump_frame b :
  _buf (check_for_dump b) = _buf b
  /\ _capacity (check_for_dump b) = _capacity b
  /\ _error (check_for_dump b) = _error b
  /\ _dump (check_for_dump b) = false.
Proof. unfold check_for_dump. destruct (_dump b) eqn:E; simpl; auto. Qed.


(** [sputn] on a buffer that borrows enough storage. *)
Lemma sputn_spec bits b s len :
  inv bits b -> bound b -> is_size bits len -> len <= Z.of_nat (length s) ->
  let b1 := check_for_dump b in
  let n := Uio.min (_capacity b - _putpos b1) len in
  exists b',
    sputn bits b s len = Some (n, b')
    /\ _getpos b' = _getpos b1 /\ _putpos b' = _putpos b1 + n
    /\ _capacity b' = _capacity b /\ _dump b' = false
    /\ _error b' = _error b /\ bound b'.
Proof.
  intros H (l & Hb & Hl) Hlen Hs b1 n.
  pose proof (check_for_dump_inv bits b H) as H1.
  destruct (check_for_dump_frame b) as (Fb & Fc & Fe & Fd).
  fold b1 in H1, Fb, Fc, Fe, Fd. split_inv H1.
  assert (Hn : 0 <= n <= _capacity b - _putpos b1 /\ n <= len).
  { unfold n. destruct (min_spec (_capacity b - _putpos b1) len) as [[? ->]|[? ->]];
      unfold is_size in *; lia. }
  unfold sputn. fold b1. rewrite Fc. size_small. fold n.
  rewrite Fb, Hb.
  destruct (copy_in_ok l (_putpos b1) s n
              ltac:(lia) ltac:(lia) ltac:(lia) ltac:(lia)) as (l' & Hc & Hl').
  rewrite Hc. eexists. split; [reflexivity|]. simpl. size_small.
  repeat split; auto. exists l'. split; [reflexivity|]. simpl. lia.
Qed.


Lemma to_size_0 bits : to_size bits 0 = 0.
Proof. apply Z.mod_0_l. pose proof (size_modulus_pos bits). lia. Qed.

(** A write of no bytes to a buffer that is marked, or whose cursors are
    at zero already. *)
Lemma sputn_zero_rewound bits b s :
  _dump b = true \/ (_dump b = false /\ _getpos b = 0 /\ _putpos b = 0) ->
  sputn bits b s 0 = Some (0, rewound b).
Proof.
  intros H. unfold sputn.
  assert (Hc : check_for_dump b = rewound b).
  { unfold check_for_dump, rewound.
    destruct b as [cap g p d m e]; simpl in *.
    destruct H as [->|(-> & -> & ->)]; reflexivity. }
  rewrite Hc. simpl.
  pose proof (to_size_range bits (_capacity b - 0)) as [Hr _].
  destruct (min_spec (to_size bits (_capacity b - 0)) 0) as [[? ->]|[? ->]];
    [lia|].
  simpl. rewrite to_size_0. reflexivity.
Qed.

Lemma in_avail_zero bits b :
  inv bits b -> in_avail bits b = 0 -> _getpos b = _putpos b.
Proof.
  intros H. split_inv H. unfold in_avail. size_small. lia.
Qed.

(** A read of [in_avail()] bytes takes the whole queue. *)
Lemma sgetn_all bits b s :
  inv bits b -> in_avail bits b <= Z.of_nat (length s) ->
  sgetn bits b s (in_avail bits b)
  = Some (in_avail bits b,
          contents bits b ++ skipn (Z.to_nat (in_avail bits b)) s,
          drained b)
  /\ Z.of_nat (length (contents bits b)) = in_avail bits b.
Proof.
  intros H Hs. pose proof H as Hi. split_inv Hi.
  unfold sgetn, contents, in_avail in *. size_small.
  set (n := _putpos b - _getpos b) in *.
  assert (Hn : 0 <= n) by (unfold n; lia).
  destruct (min_spec n n) as [[? ->]|[? ->]]; [lia|].
  replace (to_size bits (_getpos b + n)) with (_putpos b)
    by (unfold n; size_small; lia).
  rewrite Z.eqb_refl. unfold drained.
  destruct (_buf b) as [l|] eqn:Eb.
  - specialize (Hstore l eq_refl).
    rewrite copy_out_ok by (unfold n in *; lia).
    split; [reflexivity|].
    rewrite length_firstn, length_skipn. unfold n in *. lia.
  - destruct (Hnull eq_refl) as [Hp0 _].
    assert (Hn0 : n = 0) by (unfold n; lia).
    rewrite Hn0. simpl. auto.
Qed.

(** The terminator that [operator>>] stores behind the copied bytes. *)
Lemma poke_after (q s : bytes) n :
  Z.of_nat (length q) = n -> n < Z.of_nat (length s) ->
  Mem.poke (q ++ skipn (Z.to_nat n) s) n x00
  = Some (q ++ x00 :: skipn (Z.to_nat (n + 1)) s).
Proof.
  intros Hq Hs. unfold Mem.poke.
  assert (Hnat : Z.to_nat n = length q) by lia.
  rewrite length_app, length_skipn.
  destruct (Z.ltb_spec n (Z.of_nat (length q + (length s - Z.to_nat n))));
    [|lia].
  rewrite Hnat, firstn_all_app.
  replace (Z.to_nat (n + 1)) with (length q + 1)%nat by lia.
  rewrite skipn_app, skipn_all2 by lia.
  replace (length q + 1 - length q)%nat with 1%nat by lia.
  rewrite skipn_skipn. simpl. rewrite Nat.add_comm. reflexivity.
Qed.

(** [operator>>] is its statements run on [sgetn]. *)
Lemma operator_shr_on_sgetn bits i s :
  Uio.operator_shr bits i s = Uio.operator_shr_on bits (sgetn bits) i s
  /\ Part000.operator_shr bits i s
     = Part000.operator_shr_on bits (sgetn bits) i s.
Proof. split; reflexivity. Qed.



(** ** The embedding on a small run

    Capacity 4: ["AB"] is written whole; one byte, ['A'], is read; of
    ["CDE"] only ["CD"] finds room; a read of everything and a further
    write start again at offset zero. *)

Example run_write_AB :
  sputn 16 (setbuf streambuf_ctor (Some [x00; x00; x00; x00]) 4) [x41; x42] 2
  = Some (2, sample_half).
Proof. reflexivity. Qed.

Example run_read_A :
  sgetc 16 sample_half x00
  = Some (1, x41,
          {| _capacity := 4; _getpos := 1; _putpos := 2; _dump := false;
             _buf := Some [x41; x42; x00; x00]; _error := sample_error |}).
Proof. reflexivity. Qed.

Example run_write_CDE :
  option_map fst
    (sputn 16
       {| _capacity := 4; _getpos := 1; _putpos := 2; _dump := false;
          _buf := Some [x41; x42; x00; x00]; _error := sample_error |}
       [x43; x44; x45] 3)
  = Some 2.
Proof. reflexivity. Qed.

Example run_drain_then_write :
  sputn 16 sample_drained [x45; x46] 2
  = Some (2,
          {| _capacity := 4; _getpos := 0; _putpos := 2; _dump := false;
             _buf := Some [x45; x46; x43; x44]; _error := sample_error |}).
Proof. reflexivity. Qed.

(** ** The claims *)

Ltac size_lit := cbv [args_ok is_size size_modulus]; simpl; lia.

(** C1.  Round trip through the buffer.  Bind a non-null array of at
    least [c] bytes with [setbuf], for a [size_t] value [c]; write a byte
    sequence [msg] no longer than [c] with [sputn] ([putn] in
    [part_001]); read [|msg|] bytes back with [sgetn] ([getn]) into an
    array [dest] that has room for them.  Both calls return [|msg|] and
    the first [|msg|] bytes of [dest] are then the bytes of [msg], in
    the order they were written. *)
Theorem roundtrip_write_then_read bits (storage msg dest : bytes) c :
  is_size bits c -> c <= Z.of_nat (length storage) ->
  Z.of_nat (length msg) <= c ->
  (length msg <= length dest)%nat ->
  let n := Z.of_nat (length msg) in
  (forall b0, exists b1 b2,
     sputn bits (setbuf b0 (Some storage) c) msg n = Some (n, b1) /\
     sgetn bits b1 dest n = Some (n, msg ++ skipn (length msg) dest, b2)) /\
  (forall b0, exists b1 b2,
     Part001.putn bits (Part001.setbuf b0 (Some storage) c) msg n
     = Some (n, b1) /\
     Part001.getn bits b1 dest n
     = Some (n, msg ++ skipn (length msg) dest, b2)).
Proof.
  intros Hc Hst Hmsg Hdest n. split; intros b0.
  - now apply uio_roundtrip.
  - now apply part001_roundtrip.
Qed.

Lemma roundtrip_write_then_read_witness :
  exists b1 b2,
    sputn 16 (setbuf streambuf_ctor (Some [x00; x00; x00; x00]) 4)
          [x41; x42] 2 = Some (2, b1) /\
    sgetn 16 b1 [xff; xff; xff] 2 = Some (2, [x41; x42; xff], b2).
Proof.
  destruct (roundtrip_write_then_read 16 [x00; x00; x00; x00] [x41; x42]
              [xff; xff; xff] 4) as [H _].
  - size_lit.
  - simpl; lia.
  - simpl; lia.
  - simpl; lia.
  - exact (H streambuf_ctor).
Defined.

(** C3.  Cursor ordering.  In every state that a run of [sgetc], [sgetn],
    [sputc], [sputn], [purge], [setbuf] and [dump] reaches from the
    constructed object, [0 <= _getpos <= _putpos <= _capacity]. *)
Theorem cursor_ordering bits b :
  reachable bits b ->
  0 <= _getpos b /\ _getpos b <= _putpos b /\ _putpos b <= _capacity b.
Proof.
  intros H. apply reachable_inv in H. destruct H as [_ [Hg Hp] _ _ _]. lia.
Qed.

Lemma cursor_ordering_witness :
  exists b,
    run 16 streambuf_ctor sample_calls = Some b /\
    (0 <= _getpos b /\ _getpos b <= _putpos b /\ _putpos b <= _capacity b).
Proof.
  eexists. split; [vm_compute; reflexivity|].
  apply (cursor_ordering 16).
  apply (run_reachable 16 sample_calls streambuf_ctor);
    [apply reach_ctor| |vm_compute; reflexivity].
  repeat constructor; size_lit.
Defined.


Ltac reach_by calls :=
  apply (run_reachable 16 calls streambuf_ctor);
  [ apply reach_ctor
  | repeat constructor; size_lit
  | vm_compute; reflexivity ].

Lemma sample_full_reachable : reachable 16 sample_full.
Proof.
  reach_by [Setbuf (Some [x00; x00; x00; x00]) 4;
            Sputn [x41; x42; x43; x44] 4].
Qed.

Lemma sample_viewed_reachable : reachable 16 sample_viewed.
Proof.
  reach_by [Setbuf (Some [x00; x00; x00; x00]) 4; Sputn [x41; x42] 2; Dump].
Qed.

Lemma sample_half_reachable : reachable 16 sample_half.
Proof.
  reach_by [Setbuf (Some [x00; x00; x00; x00]) 4; Sputn [x41; x42] 2].
Qed.

Lemma sample_half_bound : bound sample_half.
Proof. eexists. split; [reflexivity|]. simpl. lia. Qed.

Lemma sample_full_bound : bound sample_full.
Proof. eexists. split; [reflexivity|]. simpl. lia. Qed.

Lemma sample_viewed_bound : bound sample_viewed.
Proof. eexists. split; [reflexivity|]. simpl. lia. Qed.


(** C7, as the code has it.  On a reachable buffer that borrows enough
    storage, [sputn] of [len <= _capacity - _putpos] bytes returns exactly
    [len].  When no rewind is pending ([_dump] clear), [in_avail()] grows
    by [len]; when one is pending ([_dump] set by [dump()] or by a read
    that emptied the queue), the write first puts both cursors back to
    zero and [in_avail()] is [len] afterwards. *)
Theorem sputn_in_bounds_count bits b s len :
  reachable bits b -> bound b ->
  is_size bits len -> len <= Z.of_nat (length s) ->
  len <= _capacity b - _putpos b ->
  exists b',
    sputn bits b s len = Some (len, b')
    /\ in_avail bits b' = (if _dump b then 0 else in_avail bits b) + len.
Proof.
  intros Hr Hbound Hlen Hs Hroom.
  pose proof (reachable_inv bits b Hr) as Hinv.
  destruct (sputn_spec bits b s len Hinv Hbound Hlen Hs)
    as (b' & Hw & Hg & Hp & Hc & _).
  split_inv Hinv.
  assert (Hcur : (_dump b = true /\ _getpos (check_for_dump b) = 0
                  /\ _putpos (check_for_dump b) = 0)
                 \/ (_dump b = false /\ check_for_dump b = b)).
  { unfold check_for_dump. destruct (_dump b); simpl; auto. }
  assert (Hmin : Uio.min (_capacity b - _putpos (check_for_dump b)) len = len).
  { destruct (min_spec (_capacity b - _putpos (check_for_dump b)) len)
      as [[Hlt ?]|[? Hm]]; [|exact Hm].
    destruct Hcur as [(_ & _ & Hp0)|(_ & Hb)];
      [rewrite Hp0 in Hlt|rewrite Hb in Hlt]; unfold is_size in *; lia. }
  rewrite Hmin in *. exists b'. split; [exact Hw|].
  unfold in_avail. rewrite Hg, Hp.
  destruct Hcur as [(Hd & Hg0 & Hp0)|(Hd & Hb)]; rewrite Hd.
  - rewrite Hg0, Hp0. size_small. lia.
  - rewrite Hb. size_small. lia.
Qed.

Lemma sputn_in_bounds_count_witness :
  exists b',
    sputn 16 sample_half [x43] 1 = Some (1, b')
    /\ in_avail 16 b' = in_avail 16 sample_half + 1.
Proof.
  exact (sputn_in_bounds_count 16 sample_half [x43] 1
           sample_half_reachable sample_half_bound
           ltac:(size_lit) ltac:(simpl; lia) ltac:(simpl; lia)).
Defined.

(** C7 as stated fails after [dump()] on a buffer that still holds unread
    bytes: with ["AB"] queued in a four-byte buffer and [dump()] called,
    [sputn] of one byte is within [_capacity - _putpos = 2] and returns 1,
    but [in_avail()] goes from 2 to 1, not to 3. *)
Lemma sputn_in_bounds_count_counterexample :
  reachable 16 sample_viewed /\ bound sample_viewed /\
  1 <= _capacity sample_viewed - _putpos sample_viewed /\
  in_avail 16 sample_viewed = 2 /\
  exists b',
    sputn 16 sample_viewed [x43] 1 = Some (1, b')
    /\ in_avail 16 b' = 1
    /\ in_avail 16 b' <> in_avail 16 sample_viewed + 1.
Proof.
  split; [exact sample_viewed_reachable|].
  split; [exact sample_viewed_bound|].
  split; [simpl; lia|]. split; [reflexivity|].
  eexists. split; [vm_compute; reflexivity|].
  split; [reflexivity|]. vm_compute. discriminate.
Qed.

(** C10.  A write of zero bytes still rewinds.  In the state that waits
    for the rewind (right after [dump()], or after a read that emptied
    the queue of a reachable buffer), [sputn] with [len = 0] returns 0
    and leaves both cursors at zero with the mark cleared, touching
    neither the storage nor the error register.  So [size()], the length
    of the [dump()] view, and [in_avail()] are 0 from then on. *)
Theorem zero_length_write_rewinds bits b0 b s :
  drained_pending_rewind bits b0 b ->
  sputn bits b s 0 = Some (0, rewound b)
  /\ _getpos (rewound b) = 0 /\ _putpos (rewound b) = 0
  /\ size (rewound b) = 0 /\ in_avail bits (rewound b) = 0
  /\ _buf (rewound b) = _buf b.
Proof.
  intros H.
  assert (Hw : sputn bits b s 0 = Some (0, rewound b)).
  { apply sputn_zero_rewound. destruct H as [|o b Hr Hread Hargs Hpos He Hz].
    - left. reflexivity.
    - assert (Hinv : inv bits b).
      { apply reachable_inv. now apply (reach_step bits b0 o b). }
      pose proof (in_avail_zero bits b Hinv Hz) as Heq.
      split_inv Hinv. destruct (_dump b) eqn:Ed; [now left|right].
      destruct (Z.eq_dec (_putpos b) 0) as [Hp0|Hp0].
      + repeat split; lia.
      + assert (false = true) by (apply Hdump; lia). discriminate. }
  split; [exact Hw|]. unfold in_avail, size; simpl.
  rewrite to_size_0. auto.
Qed.

Lemma zero_length_write_rewinds_witness :
  sputn 16 sample_drained [] 0 = Some (0, rewound sample_drained)
  /\ size (rewound sample_drained) = 0.
Proof.
  assert (Hp : drained_pending_rewind 16 sample_full sample_drained).
  { apply (pending_read 16 sample_full (Sgetn [x00; x00; x00; x00] 4)).
    - exact sample_full_reachable.
    - exact I.
    - size_lit.
    - vm_compute. reflexivity.
    - vm_compute. reflexivity.
    - vm_compute. reflexivity. }
  destruct (zero_length_write_rewinds 16 sample_full sample_drained [] Hp)
    as (Hw & _ & _ & Hs & _).
  split; assumption.
Defined.

(** C8.  Overflow at the stream layer.  An output stream whose buffer has
    just been bound to a non-null array of [c] bytes is asked to [write]
    a sequence of [c + 1] bytes ([c + 1] being a [size_t] value).  The
    [sputn] call that [write] forwards to returns [c] and stores the first
    [c] bytes; [write] then sets [overflow] in the stream's own register
    [_oerror]. *)
Theorem write_overflow_signalled bits o (storage msg : bytes) c :
  0 <= c -> is_size bits (c + 1) ->
  c <= Z.of_nat (length storage) ->
  Z.of_nat (length msg) = c + 1 ->
  let o0 := {| _obuf := setbuf (_obuf o) (Some storage) c;
               _oerror := _oerror o |} in
  exists b' o',
    sputn bits (_obuf o0) msg (c + 1) = Some (c, b')
    /\ write bits o0 msg (c + 1) = Some o'
    /\ _obuf o' = b'
    /\ overflow (_oerror o') = true
    /\ in_avail bits b' = c
    /\ _buf b'
       = Some (firstn (Z.to_nat c) msg ++ skipn (Z.to_nat c) storage).
Proof.
  intros Hc Hc1 Hst Hmsg o0.
  unfold write, o0; simpl.
  unfold sputn, setbuf, check_for_dump; simpl.
  rewrite Z.sub_0_r. size_small.
  destruct (min_spec c (c + 1)) as [[_ ->]|[? _]]; [|lia].
  rewrite copy_in_prefix by lia.
  destruct (Z.eqb_spec (c + 1) c) as [?|_]; [lia|].
  eexists _, _. split; [reflexivity|]. split; [reflexivity|].
  simpl. split; [reflexivity|]. split; [reflexivity|].
  split; [|reflexivity].
  unfold in_avail; simpl. size_small. lia.
Qed.

Lemma write_overflow_signalled_witness :
  exists b' o',
    sputn 16 (setbuf streambuf_ctor (Some [x00; x00]) 2) [x41; x42; x43] 3
    = Some (2, b')
    /\ write 16 {| _obuf := setbuf streambuf_ctor (Some [x00; x00]) 2;
                   _oerror := streamerr_ctor |} [x41; x42; x43] 3
       = Some o'
    /\ _obuf o' = b'
    /\ overflow (_oerror o') = true
    /\ in_avail 16 b' = 2
    /\ _buf b' = Some [x41; x42].
Proof.
  exact (write_overflow_signalled 16
           {| _obuf := streambuf_ctor; _oerror := streamerr_ctor |}
           [x00; x00] [x41; x42; x43] 2
           ltac:(lia) ltac:(size_lit) ltac:(simpl; lia) ltac:(reflexivity)).
Defined.




(** C4, as the code has it.  [setbuf(storage, capacity)] of
    [src/uio.hpp] sets both cursors to zero, clears the rewind mark and
    sets [uninitialized] to [storage == NULL]; it leaves [overflow] and
    [reserved] as they were.  [setbuf] of [part_001] sets both cursors to
    zero and leaves the whole error register as it was. *)
Theorem setbuf_binds b b1 (buf : option bytes) capacity :
  (_getpos (setbuf b buf capacity) = 0
   /\ _putpos (setbuf b buf capacity) = 0
   /\ _dump (setbuf b buf capacity) = false
   /\ _capacity (setbuf b buf capacity) = capacity
   /\ _buf (setbuf b buf capacity) = buf
   /\ uninitialized (_error (setbuf b buf capacity)) = Mem.is_null buf
   /\ overflow (_error (setbuf b buf capacity)) = overflow (_error b)
   /\ reserved (_error (setbuf b buf capacity)) = reserved (_error b))
  /\
  (Part001._getpos (Part001.setbuf b1 buf capacity) = 0
   /\ Part001._putpos (Part001.setbuf b1 buf capacity) = 0
   /\ Part001._capacity (Part001.setbuf b1 buf capacity) = capacity
   /\ Part001._buf (Part001.setbuf b1 buf capacity) = buf
   /\ Part001._error (Part001.setbuf b1 buf capacity) = Part001._error b1).
Proof. repeat split. Qed.

(** C4 as stated fails.  In [src/uio.hpp] a buffer whose public register
    [_error] has [overflow] set keeps it through [setbuf].  In [part_001]
    a read on the constructed (unbound) buffer raises [uninitialized], and
    binding a non-null array afterwards leaves it raised. *)
Lemma setbuf_binds_counterexample :
  (let b := {| _capacity := 0; _getpos := 0; _putpos := 0; _dump := false;
               _buf := None;
               _error := set_overflow (_error streambuf_ctor) true |} in
   overflow (_error (setbuf b (Some [x00]) 1)) = true)
  /\
  (exists b1,
     Part001.getc 16 Part001.streambuf_ctor x00 = Some (0, x00, b1)
     /\ Mem.is_null (Some [x00]) = false
     /\ Part001.uninitialized
          (Part001._error (Part001.setbuf b1 (Some [x00]) 1)) = true).
Proof.
  split; [reflexivity|]. eexists. repeat split.
Qed.

(** C6, as the code has it.  [purge()] of [src/uio.hpp] sets both cursors
    to zero, clears every error flag and then sets [uninitialized] to
    [_buf == NULL], and returns [_putpos - _getpos] as it was before the
    call.  [clear()] of [part_001] sets both cursors to zero, returns that
    same count and clears every error flag, [uninitialized] included,
    whether or not storage is bound. *)
Theorem purge_hard_reset bits b b1 :
  (fst (purge bits b) = in_avail bits b
   /\ _getpos (snd (purge bits b)) = 0
   /\ _putpos (snd (purge bits b)) = 0
   /\ uninitialized (_error (snd (purge bits b))) = Mem.is_null (_buf b)
   /\ overflow (_error (snd (purge bits b))) = false
   /\ reserved (_error (snd (purge bits b))) = 0
   /\ _buf (snd (purge bits b)) = _buf b
   /\ _capacity (snd (purge bits b)) = _capacity b)
  /\
  (fst (Part001.clear bits b1) = Part001.in_avail bits b1
   /\ Part001._getpos (snd (Part001.clear bits b1)) = 0
   /\ Part001._putpos (snd (Part001.clear bits b1)) = 0
   /\ Part001._error (snd (Part001.clear bits b1)) = Part001.streamerr_ctor
   /\ Part001._buf (snd (Part001.clear bits b1)) = Part001._buf b1).
Proof. repeat split. Qed.

(** C6 as stated fails for [clear()] of [part_001]: on the constructed
    buffer, whose storage is null, [clear()] leaves [uninitialized]
    clear. *)
Lemma purge_hard_reset_counterexample :
  Part001._buf Part001.streambuf_ctor = None
  /\ Part001.uninitialized
       (Part001._error (snd (Part001.clear 16 Part001.streambuf_ctor)))
     = false
  /\ (exists b1,
        Part001.putbyte 16 Part001.streambuf_ctor x41 = Some (0, b1)
        /\ Part001.uninitialized (Part001._error b1) = true
        /\ Part001._buf (snd (Part001.clear 16 b1)) = None
        /\ Part001.uninitialized (Part001._error (snd (Part001.clear 16 b1)))
           = false).
Proof.
  split; [reflexivity|]. split; [reflexivity|].
  eexists. repeat split.
Qed.

(** Transfers on a reachable buffer of [src/uio.hpp] without storage. *)
Lemma uio_unbound_reads bits b :
  reachable bits b -> _buf b = None ->
  uninitialized (_error b) = true
  /\ (forall c, sgetc bits b c = Some (0, c, b))
  /\ (forall s len,
        is_size bits len ->
        exists b',
          sgetn bits b s len = Some (0, s, b')
          /\ _buf b' = None /\ uninitialized (_error b') = true).
Proof.
  intros Hr Hb. pose proof (reachable_inv bits b Hr) as Hinv.
  split_inv Hinv. destruct (Hnull Hb) as [Hp0 Hu].
  assert (Hg0 : _getpos b = 0) by lia.
  split; [exact Hu|]. split.
  - intros c. unfold sgetc. rewrite Hp0, Hg0. simpl.
    rewrite ?to_size_0. reflexivity.
  - intros s len Hlen. unfold sgetn. rewrite Hp0, Hg0. simpl.
    rewrite ?to_size_0.
    destruct (min_spec 0 len) as [[_ ->]|[? Hm]].
    + simpl. eexists. split; [reflexivity|]. simpl. auto.
    + assert (len = 0) by (unfold is_size in *; lia). subst len.
      rewrite Hm. simpl. eexists. split; [reflexivity|]. simpl. auto.
Qed.

Lemma uio_unbound_writes bits b :
  reachable bits b -> _buf b = None -> _capacity b = 0 ->
  (forall c,
     exists b',
       sputc bits b c = Some (0, b')
       /\ _buf b' = None /\ uninitialized (_error b') = true)
  /\ (forall s len,
        is_size bits len ->
        exists b',
          sputn bits b s len = Some (0, b')
          /\ _buf b' = None /\ uninitialized (_error b') = true).
Proof.
  intros Hr Hb Hc. pose proof (reachable_inv bits b Hr) as Hinv.
  apply check_for_dump_inv in Hinv.
  destruct (check_for_dump_frame b) as (Fb & Fc & Fe & _).
  split_inv Hinv. rewrite Fb in Hnull. destruct (Hnull Hb) as [Hp0 Hu].
  rewrite Fe in Hu. split.
  - intros c. unfold sputc. rewrite Fc, Hc, Hp0. simpl.
    rewrite ?to_size_0. simpl. eexists. split; [reflexivity|].
    rewrite Fb, Fe. auto.
  - intros s len Hlen. unfold sputn. rewrite Fc, Hc, Hp0. simpl.
    rewrite ?to_size_0.
    assert (Hm : Uio.min 0 len = 0).
    { destruct (min_spec 0 len) as [[_ ->]|[? ->]];
        unfold is_size in *; lia. }
    rewrite Hm. simpl. eexists. split; [reflexivity|]. simpl.
    rewrite Fb, Fe. auto.
Qed.

(** C5, as the code has it.  In [src/uio.hpp], on a reachable buffer
    whose storage is null, [uninitialized] is set and no transfer touches
    it; [sgetc] and [sgetn] return 0; [sputc] and [sputn] return 0 when
    the capacity is 0, as it is from construction until [setbuf] is given
    another; [setbuf] with non-null storage clears the flag.  In
    [part_001], on every buffer whose storage is null, [getc], [getn],
    [putbyte] and [putn] return 0 and set [uninitialized], whatever the
    capacity; its [setbuf] leaves the flag as it is. *)
Theorem unbound_buffer_transfers bits b b1 :
  reachable bits b -> _buf b = None -> Part001._buf b1 = None ->
  (uninitialized (_error b) = true
   /\ (forall c, sgetc bits b c = Some (0, c, b))
   /\ (forall s len,
         is_size bits len ->
         exists b',
           sgetn bits b s len = Some (0, s, b')
           /\ _buf b' = None /\ uninitialized (_error b') = true)
   /\ (_capacity b = 0 ->
       (forall c,
          exists b',
            sputc bits b c = Some (0, b')
            /\ _buf b' = None /\ uninitialized (_error b') = true)
       /\ (forall s len,
             is_size bits len ->
             exists b',
               sputn bits b s len = Some (0, b')
               /\ _buf b' = None /\ uninitialized (_error b') = true))
   /\ (forall l capacity,
         uninitialized (_error (setbuf b (Some l) capacity)) = false))
  /\
  ((forall c,
      Part001.getc bits b1 c = Some (0, c, Part001.raise_uninitialized b1))
   /\ (forall s len,
         Part001.getn bits b1 s len
         = Some (0, s, Part001.raise_uninitialized b1))
   /\ (forall c,
         Part001.putbyte bits b1 c
         = Some (0, Part001.raise_uninitialized b1))
   /\ (forall s len,
         Part001.putn bits b1 s len
         = Some (0, Part001.raise_uninitialized b1))
   /\ Part001.uninitialized
        (Part001._error (Part001.raise_uninitialized b1)) = true
   /\ (forall l capacity,
         Part001.uninitialized
           (Part001._error
              (Part001.setbuf (Part001.raise_uninitialized b1) (Some l)
                 capacity)) = true)).
Proof.
  intros Hr Hb Hb1. split.
  - destruct (uio_unbound_reads bits b Hr Hb) as (Hu & Hc & Hn).
    repeat split; auto.
    + intros c. apply (uio_unbound_writes bits b Hr Hb); assumption.
    + intros s len. apply (uio_unbound_writes bits b Hr Hb); assumption.
  - unfold Part001.getc, Part001.getn, Part001.putbyte, Part001.putn.
    rewrite Hb1. simpl. repeat split.
Qed.

Lemma unbound_buffer_transfers_witness :
  sgetc 16 streambuf_ctor x00 = Some (0, x00, streambuf_ctor)
  /\ (exists b', sputn 16 streambuf_ctor [x41; x42] 2 = Some (0, b')
                 /\ _buf b' = None /\ uninitialized (_error b') = true)
  /\ Part001.putn 16 Part001.streambuf_ctor [x41; x42] 2
     = Some (0, Part001.raise_uninitialized Part001.streambuf_ctor).
Proof.
  destruct (unbound_buffer_transfers 16 streambuf_ctor Part001.streambuf_ctor
              (reach_ctor 16) eq_refl eq_refl)
    as [(_ & Hc & _ & Hw & _) (_ & _ & _ & Hp & _)].
  split; [exact (Hc x00)|]. split.
  - destruct (Hw eq_refl) as [_ Hn].
    exact (Hn [x41; x42] 2 ltac:(size_lit)).
  - exact (Hp [x41; x42] 2).
Defined.

(** C5 as stated fails.  In [src/uio.hpp], after [setbuf(NULL, 1)] the
    storage is null and the capacity is 1: [sputc] finds room and stores
    through the null pointer instead of returning 0.  In [part_001], the
    flag that a write on the unbound buffer raised is still set after
    [setbuf] binds a non-null array. *)
Lemma unbound_buffer_transfers_counterexample :
  (reachable 16 (setbuf streambuf_ctor None 1)
   /\ _buf (setbuf streambuf_ctor None 1) = None
   /\ sputc 16 (setbuf streambuf_ctor None 1) x41 = None
   /\ sputn 16 (setbuf streambuf_ctor None 1) [x41] 1 = None)
  /\
  (exists b1,
     Part001.putbyte 16 Part001.streambuf_ctor x41 = Some (0, b1)
     /\ Part001.uninitialized
          (Part001._error (Part001.setbuf b1 (Some [x00]) 1)) = true).
Proof.
  split.
  - split; [|repeat split].
    apply (reach_step 16 streambuf_ctor (Setbuf None 1));
      [apply reach_ctor | size_lit | reflexivity].
  - eexists. split; reflexivity.
Qed.

(** ** Further properties of the code *)

(** *** [streamerr] *)

(** X1.  [operator|=] is a union.  The merged register reports [any()]
    exactly when one of the two did, and it keeps every flag that either
    of the two had set. *)
Theorem or_assign_is_union e other :
  any (or_assign e other) = any e || any other
  /\ flags_le e (or_assign e other)
  /\ flags_le other (or_assign e other).
Proof.
  split; [|split].
  - unfold any, or_assign; simpl.
    assert (Hr : (Z.lor (reserved e) (reserved other) =? 0)
                 = (reserved e =? 0) && (reserved other =? 0)).
    { destruct (Z.eqb_spec (Z.lor (reserved e) (reserved other)) 0) as [H|H].
      - apply Z.lor_eq_0_iff in H. destruct H as [-> ->]. reflexivity.
      - destruct (Z.eqb_spec (reserved e) 0) as [He|He];
          destruct (Z.eqb_spec (reserved other) 0) as [Ho|Ho]; auto.
        exfalso. apply H. apply Z.lor_eq_0_iff. auto. }
    rewrite Hr.
    destruct (uninitialized e), (uninitialized other), (overflow e),
      (overflow other), (reserved e =? 0), (reserved other =? 0); reflexivity.
  - unfold flags_le, or_assign; simpl. repeat split.
    + intros ->. reflexivity.
    + intros ->. reflexivity.
    + intros k Hk. rewrite Z.lor_spec, Hk. reflexivity.
  - unfold flags_le, or_assign; simpl. repeat split.
    + intros ->. apply orb_true_r.
    + intros ->. apply orb_true_r.
    + intros k Hk. rewrite Z.lor_spec, Hk. apply orb_true_r.
Qed.

(** X2.  [operator|=] obeys the laws of a join: it is commutative,
    associative and idempotent, and the cleared register is its unit. *)
Theorem or_assign_laws e1 e2 e3 :
  or_assign e1 e2 = or_assign e2 e1
  /\ or_assign (or_assign e1 e2) e3 = or_assign e1 (or_assign e2 e3)
  /\ or_assign e1 e1 = e1
  /\ or_assign e1 (clear e2) = e1
  /\ or_assign (clear e2) e1 = e1.
Proof.
  destruct e1 as [u1 o1 r1], e2 as [u2 o2 r2], e3 as [u3 o3 r3].
  unfold or_assign, clear, streamerr_ctor; simpl. repeat split.
  - f_equal; try apply orb_comm. apply Z.lor_comm.
  - f_equal; try (symmetry; apply orb_assoc). symmetry. apply Z.lor_assoc.
  - f_equal; try apply orb_diag. apply Z.lor_diag.
  - f_equal; try apply orb_false_r. apply Z.lor_0_r.
Qed.

(** *** [streambuf] of [src/uio.hpp] *)

Lemma contents_length bits b :
  inv bits b -> Z.of_nat (length (contents bits b)) = in_avail bits b.
Proof.
  intros H. split_inv H. unfold contents, in_avail. size_small.
  destruct (_buf b) as [l|] eqn:Eb.
  - specialize (Hstore l eq_refl).
    rewrite length_firstn, length_skipn. lia.
  - destruct (Hnull eq_refl) as [Hp _]. simpl. lia.
Qed.

Lemma copy_in_at l off s n :
  0 <= off -> 0 <= n -> n <= Z.of_nat (length s) ->
  off + n <= Z.of_nat (length l) ->
  Mem.copy_in (Some l) off s n
  = Some (Some (firstn (Z.to_nat off) l ++ firstn (Z.to_nat n) s
                ++ skipn (Z.to_nat (off + n)) l)).
Proof.
  intros Ho Hn Hs Hl. unfold Mem.copy_in, Mem.blit.
  destruct (Z.eqb_spec n 0) as [->|Hne].
  - rewrite Z.add_0_r. simpl. now rewrite firstn_skipn.
  - destruct (Z.leb_spec (0 + n) (Z.of_nat (length s))); [|lia].
    destruct (Z.leb_spec (off + n) (Z.of_nat (length l))); [|lia].
    reflexivity.
Qed.

(** X3.  [sgetn] hands out the head of the queue.  On a reachable buffer,
    with [n = min(in_avail(), len)] and a destination of at least [n]
    bytes, it returns [n], puts the first [n] queued bytes at the front
    of the destination, keeps the rest queued in order, and leaves
    [_dump] set exactly when the queue is then empty, whatever the mark
    was before the call. *)
Theorem sgetn_delivers_prefix bits b s len :
  reachable bits b -> is_size bits len ->
  Uio.min (in_avail bits b) len <= Z.of_nat (length s) ->
  let n := Uio.min (in_avail bits b) len in
  exists b',
    sgetn bits b s len
    = Some (n, firstn (Z.to_nat n) (contents bits b) ++ skipn (Z.to_nat n) s,
            b')
    /\ contents bits b' = skipn (Z.to_nat n) (contents bits b)
    /\ in_avail bits b' = in_avail bits b - n
    /\ _dump b' = (in_avail bits b' =? 0)
    /\ _buf b' = _buf b.
Proof.
  intros Hr Hlen Hs n. subst n.
  pose proof (reachable_inv bits b Hr) as Hinv. split_inv Hinv.
  unfold sgetn, contents, in_avail in *. size_small.
  set (a := _putpos b - _getpos b) in *.
  set (n := Uio.min a len) in *.
  assert (Hn : 0 <= n <= a /\ n <= len).
  { unfold n. destruct (min_spec a len) as [[? ->]|[? ->]];
      unfold a, is_size in *; lia. }
  clearbody n.
  destruct (_buf b) as [l|] eqn:Eb.
  - specialize (Hstore l eq_refl).
    rewrite copy_out_ok by (unfold a in *; lia).
    eexists. split.
    { rewrite firstn_firstn.
      replace (Init.Nat.min (Z.to_nat n) (Z.to_nat a)) with (Z.to_nat n)
        by lia.
      reflexivity. }
    simpl; rewrite ?Eb; size_small; repeat split.
    + rewrite skipn_firstn_comm, skipn_skipn.
      f_equal; [|f_equal]; unfold a in *; lia.
    + unfold a. lia.
    + unfold a.
      destruct (Z.eqb_spec (_getpos b + n) (_putpos b));
        destruct (Z.eqb_spec (_putpos b - (_getpos b + n)) 0); auto; lia.
  - destruct (Hnull eq_refl) as [Hp0 _].
    assert (Hn0 : n = 0) by (unfold a in *; lia). subst n.
    simpl. eexists. split; [reflexivity|]. simpl. rewrite ?Eb. size_small.
    repeat split.
    + unfold a. lia.
    + unfold a. rewrite Z.add_0_r.
      assert (Hg0 : _getpos b = _putpos b) by lia. rewrite Hg0.
      rewrite Z.eqb_refl, Z.sub_diag. reflexivity.
Qed.

Lemma sgetn_delivers_prefix_witness :
  exists b',
    sgetn 16 sample_full [xff; xff; xff] 3
    = Some (3, [x41; x42; x43], b')
    /\ contents 16 b' = [x44].
Proof.
  destruct (sgetn_delivers_prefix 16 sample_full [xff; xff; xff] 3
              sample_full_reachable ltac:(size_lit)
              ltac:(vm_compute; discriminate))
    as (b' & Hread & Hc & _).
  exists b'. split; [exact Hread | exact Hc].
Defined.

Lemma firstn_skipn_cons {A} (l : list A) g a v q :
  firstn a (skipn g l) = v :: q ->
  nth_error l g = Some v /\ q = firstn (a - 1) (skipn (S g) l).
Proof.
  intros H.
  replace g with (g + 0)%nat at 1 by lia. rewrite <- nth_error_skipn.
  change (S g) with (1 + g)%nat. rewrite <- skipn_skipn.
  destruct (skipn g l) as [|x t]; destruct a as [|a];
    simpl in H; try discriminate.
  injection H as -> <-. simpl. rewrite Nat.sub_0_r. auto.
Qed.

(** X4.  [sgetc] hands out the oldest queued byte.  On a reachable
    buffer: when the queue is empty it returns 0 and changes neither the
    caller's byte nor the buffer; otherwise it returns 1 with the byte at
    the head of the queue, the rest stays queued in order, and [_dump] is
    set exactly when the queue is then empty. *)
Theorem sgetc_delivers_head bits b c :
  reachable bits b ->
  match contents bits b with
  | [] => sgetc bits b c = Some (0, c, b)
  | v :: q =>
      exists b',
        sgetc bits b c = Some (1, v, b')
        /\ contents bits b' = q
        /\ _dump b' = (in_avail bits b' =? 0)
  end.
Proof.
  intros Hr. pose proof (reachable_inv bits b Hr) as Hinv.
  pose proof (contents_length bits b Hinv) as Hlen.
  split_inv Hinv. unfold sgetc.
  destruct (contents bits b) as [|v q] eqn:Ec; simpl in Hlen;
    unfold contents, in_avail in *; size_small.
  - destruct (Z.leb_spec (_putpos b - _getpos b) 0); [reflexivity|lia].
  - destruct (Z.leb_spec (_putpos b - _getpos b) 0); [lia|].
    destruct (_buf b) as [l|] eqn:Eb; [|discriminate].
    apply firstn_skipn_cons in Ec. destruct Ec as [Hv Hq].
    simpl. rewrite Hv. eexists. split; [reflexivity|]. simpl. size_small.
    split.
    + rewrite Hq. f_equal; [|f_equal]; lia.
    + destruct (Z.eqb_spec (_getpos b + 1) (_putpos b));
        destruct (Z.eqb_spec (_putpos b - (_getpos b + 1)) 0); auto; lia.
Qed.

Lemma sgetc_delivers_head_witness :
  exists b',
    sgetc 16 sample_half x00 = Some (1, x41, b')
    /\ contents 16 b' = [x42]
    /\ _dump b' = (in_avail 16 b' =? 0).
Proof.
  exact (sgetc_delivers_head 16 sample_half x00 sample_half_reachable).
Defined.

Lemma splice_window (l s : bytes) g p n :
  (g <= p)%nat -> (p + n <= length l)%nat -> (n <= length s)%nat ->
  firstn (p + n - g)
         (skipn g (firstn p l ++ firstn n s ++ skipn (p + n) l))
  = firstn (p - g) (skipn g l) ++ firstn n s.
Proof.
  intros Hg Hl Hs.
  assert (Hp : length (firstn p l) = p) by (rewrite length_firstn; lia).
  assert (Hn : length (firstn n s) = n) by (rewrite length_firstn; lia).
  rewrite skipn_app, Hp.
  replace (g - p)%nat with 0%nat by lia. simpl.
  rewrite skipn_firstn_comm.
  rewrite firstn_app, length_firstn, length_skipn.
  replace (Init.Nat.min (p - g) (length l - g)) with (p - g)%nat by lia.
  rewrite firstn_firstn.
  replace (Init.Nat.min (p + n - g) (p - g)) with (p - g)%nat by lia.
  f_equal.
  replace (p + n - g - (p - g))%nat with n by lia.
  rewrite firstn_app, Hn, firstn_firstn, Nat.sub_diag, Nat.min_id.
  simpl. apply app_nil_r.
Qed.

(** [sputn] as an operation on the queue. *)
Lemma sputn_queue bits b s len :
  reachable bits b -> bound b ->
  is_size bits len -> len <= Z.of_nat (length s) ->
  let room := _capacity b - (if _dump b then 0 else _putpos b) in
  let n := Uio.min room len in
  exists b',
    sputn bits b s len = Some (n, b')
    /\ contents bits b'
       = (if _dump b then [] else contents bits b) ++ firstn (Z.to_nat n) s
    /\ 0 <= n <= len /\ n <= room.
Proof.
  intros Hr (l & Hb & Hl) Hlen Hs room n. subst room n.
  pose proof (reachable_inv bits b Hr) as Hinv.
  pose proof (check_for_dump_inv bits b Hinv) as H1.
  destruct (check_for_dump_frame b) as (Fb & Fc & Fe & Fd).
  assert (Hq : contents bits (check_for_dump b)
               = if _dump b then [] else contents bits b).
  { unfold check_for_dump. destruct (_dump b); [|reflexivity].
    unfold contents, in_avail; simpl. rewrite Hb, ?to_size_0. reflexivity. }
  assert (Hp : _putpos (check_for_dump b) = if _dump b then 0 else _putpos b).
  { unfold check_for_dump. destruct (_dump b); reflexivity. }
  rewrite <- Hq, <- Hp. unfold sputn. cbv zeta.
  set (b1 := check_for_dump b) in *. clearbody b1. split_inv H1.
  rewrite Fc in *. size_small.
  set (n := Uio.min (_capacity b - _putpos b1) len).
  assert (Hn : 0 <= n <= _capacity b - _putpos b1 /\ n <= len).
  { unfold n.
    destruct (min_spec (_capacity b - _putpos b1) len) as [[? ->]|[? ->]];
      unfold is_size in *; lia. }
  clearbody n. rewrite Fb, Hb.
  rewrite copy_in_at by lia.
  eexists. split; [reflexivity|]. split; [|lia].
  unfold contents, in_avail; simpl. rewrite Fb, Hb. size_small.
  replace (Z.to_nat (_putpos b1 + n - _getpos b1))
    with (Z.to_nat (_putpos b1) + Z.to_nat n - Z.to_nat (_getpos b1))%nat
    by lia.
  replace (Z.to_nat (_putpos b1 + n))
    with (Z.to_nat (_putpos b1) + Z.to_nat n)%nat by lia.
  rewrite splice_window by lia.
  f_equal. f_equal. lia.
Qed.

(** X5.  [sputn] appends to the queue.  On a reachable buffer that borrows
    enough storage, [sputn] of [len] bytes of [s] returns
    [n = min(room, len)], where the room is [_capacity - _putpos], or the
    whole [_capacity] when a rewind is pending.  The queue afterwards is
    the old queue (emptied first when a rewind is pending) followed by the
    first [n] bytes of [s]. *)
Theorem sputn_appends bits b s len :
  reachable bits b -> bound b ->
  is_size bits len -> len <= Z.of_nat (length s) ->
  let room := _capacity b - (if _dump b then 0 else _putpos b) in
  let n := Uio.min room len in
  exists b',
    sputn bits b s len = Some (n, b')
    /\ contents bits b'
       = (if _dump b then [] else contents bits b) ++ firstn (Z.to_nat n) s
    /\ 0 <= n <= len /\ n <= room.
Proof. exact (sputn_queue bits b s len). Qed.

Lemma sputn_appends_witness :
  exists b',
    sputn 16 sample_half [x43; x44; x45] 3 = Some (2, b')
    /\ contents 16 b' = [x41; x42; x43; x44].
Proof.
  destruct (sputn_appends 16 sample_half [x43; x44; x45] 3
              sample_half_reachable sample_half_bound
              ltac:(size_lit) ltac:(simpl; lia))
    as (b' & Hw & Hc & _).
  exists b'. split; [exact Hw | exact Hc].
Defined.

Lemma one_is_size bits : is_size bits 1.
Proof.
  unfold is_size, size_modulus. split; [lia|].
  apply (Z.pow_gt_1 2 (Z.pos bits)); lia.
Qed.

(** [sputc] through [sputn]. *)
Lemma sputc_sputn_one bits b c :
  reachable bits b -> sputc bits b c = sputn bits b [c] 1.
Proof.
  intros Hr. pose proof (reachable_inv bits b Hr) as Hinv.
  apply check_for_dump_inv in Hinv.
  unfold sputc, sputn. cbv zeta.
  set (b1 := check_for_dump b) in *. clearbody b1. split_inv Hinv.
  size_small.
  destruct (Z.leb_spec (_capacity b1 - _putpos b1) 0) as [Hfull|Hroom].
  - destruct (min_spec (_capacity b1 - _putpos b1) 1) as [[_ ->]|[? _]];
      [|lia].
    replace (_capacity b1 - _putpos b1) with 0 by lia.
    simpl. rewrite Z.add_0_r. size_small. destruct b1; reflexivity.
  - destruct (min_spec (_capacity b1 - _putpos b1) 1) as [[? _]|[_ ->]];
      [lia|].
    unfold Mem.store, Mem.copy_in, Mem.blit. simpl.
    destruct (_buf b1) as [l|]; [|reflexivity].
    destruct (Z.ltb_spec (_putpos b1) (Z.of_nat (length l)));
      destruct (Z.leb_spec (_putpos b1 + 1) (Z.of_nat (length l)));
      try lia; reflexivity.
Qed.

(** X6.  On a reachable buffer [sputc(c)] does what [sputn] does with the
    one-byte array [{c}] and [len = 1]: same return value, same object,
    same fault. *)
Theorem sputc_is_sputn_one bits b c :
  reachable bits b -> sputc bits b c = sputn bits b [c] 1.
Proof. exact (sputc_sputn_one bits b c). Qed.

Lemma sputc_is_sputn_one_witness :
  sputc 16 sample_half x43 = sputn 16 sample_half [x43] 1.
Proof.
  exact (sputc_is_sputn_one 16 sample_half x43 sample_half_reachable).
Defined.

(** X7.  On a reachable buffer whose queue is not empty, [sgetc] does what
    [sgetn] does with a one-byte destination and [len = 1].  (On an empty
    queue the two differ: [sgetn] sets [_dump], [sgetc] returns before
    it.) *)
Theorem sgetc_is_sgetn_one bits b c :
  reachable bits b -> 0 < in_avail bits b ->
  sgetn bits b [c] 1
  = match sgetc bits b c with
    | Some (r, v, b') => Some (r, [v], b')
    | None => None
    end.
Proof.
  intros Hr Hpos. pose proof (reachable_inv bits b Hr) as Hinv.
  split_inv Hinv. unfold sgetc, sgetn, in_avail in *. size_small.
  destruct (Z.leb_spec (_putpos b - _getpos b) 0); [lia|].
  destruct (min_spec (_putpos b - _getpos b) 1) as [[? _]|[_ ->]]; [lia|].
  unfold Mem.load, Mem.copy_out, Mem.blit. simpl.
  destruct (_buf b) as [l|]; [|reflexivity].
  destruct (Z.leb_spec (_getpos b + 1) (Z.of_nat (length l))) as [Hin|Hout].
  - destruct (nth_error l (Z.to_nat (_getpos b))) as [v|] eqn:Ev.
    + replace (Z.to_nat (_getpos b)) with (Z.to_nat (_getpos b) + 0)%nat
        in Ev by lia.
      rewrite <- nth_error_skipn in Ev.
      destruct (skipn (Z.to_nat (_getpos b)) l) as [|x t];
        [discriminate|].
      simpl in Ev. injection Ev as ->. simpl. size_small. reflexivity.
    + apply nth_error_None in Ev. lia.
  - destruct (nth_error l (Z.to_nat (_getpos b))) as [v|] eqn:Ev;
      [|reflexivity].
    assert (nth_error l (Z.to_nat (_getpos b)) <> None) by congruence.
    apply nth_error_Some in H0. lia.
Qed.

Lemma sgetc_is_sgetn_one_witness :
  sgetn 16 sample_half [x00] 1
  = match sgetc 16 sample_half x00 with
    | Some (r, v, b') => Some (r, [v], b')
    | None => None
    end.
Proof.
  exact (sgetc_is_sgetn_one 16 sample_half x00 sample_half_reachable
           ltac:(vm_compute; reflexivity)).
Defined.

Lemma splice_nth (l s : bytes) p n :
  (p + n <= length l)%nat -> (n <= length s)%nat ->
  let l' := firstn p l ++ firstn n s ++ skipn (p + n) l in
  length l' = length l
  /\ (forall i, (i < p \/ p + n <= i)%nat -> nth_error l' i = nth_error l i)
  /\ (forall k, (k < n)%nat -> nth_error l' (p + k) = nth_error s k).
Proof.
  intros Hl Hs l'. subst l'.
  assert (Hp : length (firstn p l) = p) by (rewrite length_firstn; lia).
  assert (Hn : length (firstn n s) = n) by (rewrite length_firstn; lia).
  split; [|split].
  - rewrite !length_app, Hp, Hn, length_skipn. lia.
  - intros i [Hi|Hi].
    + rewrite nth_error_app1 by lia. rewrite nth_error_firstn.
      destruct (Nat.ltb_spec i p); [reflexivity|lia].
    + rewrite nth_error_app2 by lia. rewrite nth_error_app2 by lia.
      rewrite nth_error_skipn, Hp, Hn. f_equal. lia.
  - intros k Hk.
    rewrite nth_error_app2 by lia. rewrite Hp.
    replace (p + k - p)%nat with k by lia.
    rewrite nth_error_app1 by lia. rewrite nth_error_firstn.
    destruct (Nat.ltb_spec k n); [reflexivity|lia].
Qed.

(** X8.  [sputn] stays inside the window it reports.  When [sputn] on a
    reachable buffer with storage [l] returns [r], the storage keeps its
    length, the [r] bytes below the new [_putpos] are the first [r] bytes
    of [s], and every other byte of the storage is as before; the new
    [_putpos] does not exceed [_capacity], so nothing at or beyond
    [_capacity] is written. *)
Theorem sputn_stays_in_storage bits b s len r b' l :
  reachable bits b -> is_size bits len ->
  _buf b = Some l -> sputn bits b s len = Some (r, b') ->
  exists l',
    _buf b' = Some l' /\ length l' = length l
    /\ 0 <= r <= _putpos b' /\ _putpos b' <= _capacity b
    /\ (forall i,
          Z.of_nat i < _putpos b' - r \/ _putpos b' <= Z.of_nat i ->
          nth_error l' i = nth_error l i)
    /\ (forall k,
          Z.of_nat k < r ->
          nth_error l' (Z.to_nat (_putpos b' - r) + k) = nth_error s k).
Proof.
  intros Hr Hlen Hb. pose proof (reachable_inv bits b Hr) as Hinv.
  apply check_for_dump_inv in Hinv.
  destruct (check_for_dump_frame b) as (Fb & Fc & _ & _).
  unfold sputn. cbv zeta.
  set (b1 := check_for_dump b) in *. clearbody b1. split_inv Hinv.
  rewrite Fc in *. size_small.
  set (n := Uio.min (_capacity b - _putpos b1) len).
  assert (Hn : 0 <= n <= _capacity b - _putpos b1).
  { unfold n.
    destruct (min_spec (_capacity b - _putpos b1) len) as [[? ->]|[? ->]];
      unfold is_size in *; lia. }
  clearbody n. rewrite Fb, Hb in *. specialize (Hstore l eq_refl).
  unfold Mem.copy_in, Mem.blit.
  destruct (Z.eqb_spec n 0) as [->|Hne].
  - intros [= <- <-]. simpl. rewrite Z.add_0_r. size_small.
    exists l. repeat split; auto; lia.
  - destruct (Z.leb_spec (0 + n) (Z.of_nat (length s))); simpl;
      [|discriminate].
    destruct (Z.leb_spec (_putpos b1 + n) (Z.of_nat (length l))); simpl;
      [|discriminate].
    intros [= <- <-]. simpl. size_small.
    replace (Z.to_nat (_putpos b1 + n))
      with (Z.to_nat (_putpos b1) + Z.to_nat n)%nat by lia.
    destruct (splice_nth l s (Z.to_nat (_putpos b1)) (Z.to_nat n))
      as (Hl' & Hout & Hin); try lia.
    eexists. split; [reflexivity|].
    split; [exact Hl'|]. split; [lia|]. split; [lia|]. split.
    + intros i Hi. apply Hout. lia.
    + intros k Hk.
      replace (Z.to_nat (_putpos b1 + n - n)) with (Z.to_nat (_putpos b1))
        by lia.
      apply Hin. lia.
Qed.

Lemma sputn_stays_in_storage_witness :
  sputn 16 sample_half [x43; x44; x45] 3 = Some (2, sample_full)
  /\ exists l',
       _buf sample_full = Some l' /\ length l' = 4%nat
       /\ nth_error l' 0 = Some x41
       /\ nth_error l' 3 = Some x44.
Proof.
  assert (Hw : sputn 16 sample_half [x43; x44; x45] 3 = Some (2, sample_full))
    by reflexivity.
  split; [exact Hw|].
  destruct (sputn_stays_in_storage 16 sample_half [x43; x44; x45] 3 2
              sample_full [x41; x42; x00; x00]
              sample_half_reachable ltac:(size_lit) eq_refl Hw)
    as (l' & Hb & Hl & _ & _ & Hout & Hin).
  exists l'. split; [exact Hb|]. split; [exact Hl|]. split.
  - exact (Hout 0%nat ltac:(left; simpl; lia)).
  - exact (Hin 1%nat ltac:(simpl; lia)).
Defined.

Lemma copy_in_is_null buf off s n m :
  Mem.copy_in buf off s n = Some m -> Mem.is_null m = Mem.is_null buf.
Proof.
  unfold Mem.copy_in. destruct (n =? 0); [now intros [= <-]|].
  destruct buf as [l|]; [|discriminate].
  destruct (Mem.blit l off s 0 n); [|discriminate]. now intros [= <-].
Qed.

Lemma store_is_null buf off c m :
  Mem.store buf off c = Some m -> Mem.is_null m = Mem.is_null buf.
Proof.
  unfold Mem.store. destruct buf as [l|]; [|discriminate].
  destruct (off <? _); [|discriminate]. now intros [= <-].
Qed.

(** X9.  The buffer's own register carries one bit of information.  In
    every state reached from the constructor through the public
    operations, [_error] has [uninitialized] equal to [_buf == NULL] and
    nothing else set: no operation of [streambuf] ever raises [overflow]
    or a reserved bit, so merging a buffer's register into a stream's can
    only add [uninitialized]. *)
Theorem buffer_register_invariant bits b :
  reachable bits b ->
  _error b = {| uninitialized := Mem.is_null (_buf b);
                overflow := false; reserved := 0 |}.
Proof.
  induction 1 as [|b o b' _ IH _ He]; [reflexivity|].
  destruct o; simpl in He.
  - unfold sgetc in He. destruct (_ <=? 0); simpl in He.
    + now injection He as <-.
    + destruct (Mem.load _ _); simpl in He; [|discriminate].
      now injection He as <-.
  - unfold sgetn in He.
    destruct (Mem.copy_out _ _ _ _); simpl in He; [|discriminate].
    now injection He as <-.
  - unfold sputc in He. cbv zeta in He.
    destruct (check_for_dump_frame b) as (Fb & _ & Fe & _).
    destruct (_ <=? 0); simpl in He.
    + injection He as <-. now rewrite Fb, Fe.
    + destruct (Mem.store _ _ c) as [m|] eqn:Es; simpl in He; [|discriminate].
      injection He as <-. simpl.
      rewrite (store_is_null _ _ _ _ Es), Fb, Fe. exact IH.
  - unfold sputn in He. cbv zeta in He.
    destruct (check_for_dump_frame b) as (Fb & _ & Fe & _).
    destruct (Mem.copy_in _ _ s _) as [m|] eqn:Ec; simpl in He; [|discriminate].
    injection He as <-. simpl.
    rewrite (copy_in_is_null _ _ _ _ _ Ec), Fb, Fe. exact IH.
  - injection He as <-. reflexivity.
  - injection He as <-. simpl. rewrite IH. reflexivity.
  - injection He as <-. exact IH.
Qed.

Lemma buffer_register_invariant_witness :
  _error sample_drained
  = {| uninitialized := false; overflow := false; reserved := 0 |}.
Proof.
  assert (Hr : reachable 16 sample_drained).
  { reach_by [Setbuf (Some [x00; x00; x00; x00]) 4;
              Sputn [x41; x42; x43; x44] 4; Sgetn [x00; x00; x00; x00] 4]. }
  exact (buffer_register_invariant 16 sample_drained Hr).
Defined.

(** X10.  The hard reset is idempotent.  A second [purge()] right after
    the first returns 0 and leaves the object as the first left it; the
    same holds for [clear()] of [part_001]. *)
Theorem purge_idempotent bits b b1 :
  purge bits (snd (purge bits b)) = (0, snd (purge bits b))
  /\ Part001.clear bits (snd (Part001.clear bits b1))
     = (0, snd (Part001.clear bits b1)).
Proof.
  unfold purge, Part001.clear; simpl. rewrite ?to_size_0. split; reflexivity.
Qed.

(** X11.  The check that [part_000] makes in [operator>>] never fires:
    for every stream and destination, faults included, [operator>>] of
    [part_000] and of [src/uio.hpp] give the same result. *)
Theorem part000_check_is_idle bits i s :
  Part000.operator_shr bits i s = Uio.operator_shr bits i s.
Proof.
  unfold Part000.operator_shr, Uio.operator_shr, sgetn, in_avail.
  set (n := to_size bits (_putpos (_ibuf i) - _getpos (_ibuf i))).
  assert (Hm : Uio.min n n = n).
  { unfold Uio.min. now rewrite Z.ltb_irrefl. }
  rewrite Hm.
  destruct (Mem.copy_out s _ _ n); [|reflexivity].
  rewrite Z.eqb_refl. reflexivity.
Qed.

(** *** The stream classes of [src/uio.hpp] *)

(** X12.  [operator>>] empties the stream.  After it, [gcount()] is 0,
    and a second [operator>>] stores only the terminator at the front of
    its destination and leaves the stream as it is. *)
Theorem extract_then_extract bits i s c2 s2 :
  reachable bits (_ibuf i) ->
  in_avail bits (_ibuf i) < Z.of_nat (length s) ->
  exists line i1,
    Uio.operator_shr bits i s = Some (line, i1)
    /\ gcount bits i1 = 0
    /\ Uio.operator_shr bits i1 (c2 :: s2) = Some (x00 :: s2, i1).
Proof.
  intros Hr Hs. pose proof (reachable_inv bits _ Hr) as Hinv.
  destruct (sgetn_all bits (_ibuf i) s Hinv ltac:(lia)) as [Hread Hlen].
  unfold Uio.operator_shr at 1. rewrite Hread.
  rewrite poke_after by assumption.
  eexists _, _. split; [reflexivity|].
  split_inv Hinv.
  assert (Hz : in_avail bits (drained (_ibuf i)) = 0).
  { unfold in_avail, drained; simpl. now rewrite Z.sub_diag, to_size_0. }
  split; [exact Hz|].
  unfold Uio.operator_shr. cbv zeta. simpl _ibuf. rewrite Hz.
  unfold sgetn. simpl. rewrite Z.sub_diag, ?to_size_0. simpl.
  rewrite Z.add_0_r. size_small. rewrite Z.eqb_refl. reflexivity.
Qed.

Lemma extract_then_extract_witness :
  exists line i1,
    Uio.operator_shr 16 {| _ibuf := sample_half; _ierror := streamerr_ctor |}
                     [xff; xff; xff] = Some (line, i1)
    /\ gcount 16 i1 = 0
    /\ Uio.operator_shr 16 i1 [xff; xff] = Some ([x00; xff], i1).
Proof.
  exact (extract_then_extract 16
           {| _ibuf := sample_half; _ierror := streamerr_ctor |}
           [xff; xff; xff] xff [xff]
           sample_half_reachable ltac:(vm_compute; reflexivity)).
Defined.

Lemma flags_le_refl e : flags_le e e.
Proof. unfold flags_le. auto. Qed.

Lemma flags_le_flag_overflow e b : flags_le e (flag_overflow e b).
Proof.
  unfold flags_le, flag_overflow, or_assign, set_overflow; simpl.
  repeat split.
  - intros ->. reflexivity.
  - intros k Hk. rewrite Z.lor_spec, Hk. reflexivity.
Qed.

Lemma write_flags_le bits o s n o' :
  write bits o s n = Some o' -> flags_le (_oerror o) (_oerror o').
Proof.
  unfold write. destruct (sputn bits (_obuf o) s n) as [[r b']|];
    [|discriminate].
  destruct (n =? r); intros [= <-]; simpl.
  - apply flags_le_refl.
  - apply flags_le_flag_overflow.
Qed.

(** X13.  The flags of an output stream are sticky.  Whatever [write],
    [put] or [operator<<] does, every flag that was set in [_oerror]
    before the call is set after it. *)
Theorem ostream_flags_sticky bits o s n c o' :
  write bits o s n = Some o'
  \/ put bits o c = Some o'
  \/ operator_shl bits o s = Some o' ->
  flags_le (_oerror o) (_oerror o').
Proof.
  intros [H|[H|H]].
  - exact (write_flags_le bits o s n o' H).
  - unfold put in H. destruct (sputc bits (_obuf o) c) as [[r b']|];
      [|discriminate].
    destruct (negb (r =? 0)); injection H as <-; simpl.
    + apply flags_le_refl.
    + apply flags_le_flag_overflow.
  - unfold operator_shl in H. destruct (Mem.strlen s); [|discriminate].
    exact (write_flags_le bits o s _ o' H).
Qed.

Lemma ostream_flags_sticky_witness :
  exists o',
    write 16 {| _obuf := sample_half;
                _oerror := set_overflow streamerr_ctor true |} [x45] 1
    = Some o'
    /\ overflow (_oerror o') = true.
Proof.
  eexists. split; [reflexivity|].
  refine (let H := ostream_flags_sticky 16
            {| _obuf := sample_half;
               _oerror := set_overflow streamerr_ctor true |}
            [x45] 1 x00 _ (or_introl eq_refl) in _).
  destruct H as (_ & Ho & _). exact (Ho eq_refl).
Defined.

(** X14.  [write] raises [overflow] exactly when the buffer lacks room.
    On a stream whose buffer is reachable and borrows enough storage,
    [write(s, n)] queues the first [min(room, n)] bytes of [s] behind what
    was queued (nothing, when a rewind is pending).  When [n <= room] the
    register [_oerror] is left as it was; when [n > room] it gets
    [overflow] and the flags of the buffer's register. *)
Theorem write_flags_exactly_when_short bits o s n :
  reachable bits (_obuf o) -> bound (_obuf o) ->
  is_size bits n -> n <= Z.of_nat (length s) ->
  let b := _obuf o in
  let room := _capacity b - (if _dump b then 0 else _putpos b) in
  exists o',
    write bits o s n = Some o'
    /\ contents bits (_obuf o')
       = (if _dump b then [] else contents bits b)
         ++ firstn (Z.to_nat (Uio.min room n)) s
    /\ _oerror o'
       = (if n <=? room then _oerror o
          else flag_overflow (_oerror o) (_obuf o'))
    /\ overflow (flag_overflow (_oerror o) (_obuf o')) = true.
Proof.
  intros Hr Hb Hn Hs b room.
  destruct (sputn_queue bits b s n Hr Hb Hn Hs) as (b' & Hw & Hc & Hr0 & Hr1).
  fold room in Hw, Hc, Hr0, Hr1.
  unfold write. fold b. rewrite Hw.
  destruct (min_spec room n) as [[Hlt Hm]|[Hle Hm]]; rewrite Hm in *.
  - destruct (Z.eqb_spec n room); [lia|].
    destruct (Z.leb_spec n room); [lia|].
    eexists. split; [reflexivity|]. simpl. auto.
  - rewrite Z.eqb_refl. destruct (Z.leb_spec n room); [|lia].
    eexists. split; [reflexivity|]. simpl. auto.
Qed.

Lemma write_flags_exactly_when_short_witness :
  exists o',
    write 16 {| _obuf := sample_half; _oerror := streamerr_ctor |}
          [x43; x44; x45] 3 = Some o'
    /\ contents 16 (_obuf o') = [x41; x42; x43; x44]
    /\ overflow (_oerror o') = true.
Proof.
  destruct (write_flags_exactly_when_short 16
              {| _obuf := sample_half; _oerror := streamerr_ctor |}
              [x43; x44; x45] 3
              sample_half_reachable sample_half_bound
              ltac:(size_lit) ltac:(simpl; lia))
    as (o' & Hw & Hc & He & Ho).
  exists o'. split; [exact Hw|]. split; [exact Hc|].
  simpl in He. rewrite He. exact Ho.
Defined.

(** X15.  [put(c)] is [write] of the one byte [c]: on a stream whose
    buffer is reachable the two calls give the same result. *)
Theorem put_is_write_one bits o c :
  reachable bits (_obuf o) -> put bits o c = write bits o [c] 1.
Proof.
  intros Hr. unfold put, write.
  rewrite <- (sputc_sputn_one bits (_obuf o) c Hr).
  unfold sputc. cbv zeta.
  destruct (_ <=? 0); [reflexivity|].
  destruct (Mem.store _ _ c); reflexivity.
Qed.

Lemma put_is_write_one_witness :
  put 16 {| _obuf := sample_full; _oerror := streamerr_ctor |} x45
  = write 16 {| _obuf := sample_full; _oerror := streamerr_ctor |} [x45] 1.
Proof.
  exact (put_is_write_one 16
           {| _obuf := sample_full; _oerror := streamerr_ctor |} x45
           sample_full_reachable).
Defined.

Lemma strlen_body body rest :
  no_nul body ->
  Mem.strlen (body ++ x00 :: rest) = Some (Z.of_nat (length body)).
Proof.
  induction 1 as [|c t Hc _ IH]; [reflexivity|].
  cbn [app Mem.strlen length]. destruct (Byte.eqb c x00) eqn:E.
  - apply byte_dec_bl in E. contradiction.
  - rewrite IH. simpl. f_equal. lia.
Qed.

Lemma copy_in_source_prefix buf off (body rest : bytes) n :
  0 <= n <= Z.of_nat (length body) ->
  Mem.copy_in buf off (body ++ rest) n = Mem.copy_in buf off body n.
Proof.
  intros Hn. unfold Mem.copy_in, Mem.blit.
  destruct (n =? 0); [reflexivity|].
  destruct buf as [l|]; [|reflexivity].
  rewrite length_app.
  destruct (Z.leb_spec (0 + n) (Z.of_nat (length body + length rest)));
    [|lia].
  destruct (Z.leb_spec (0 + n) (Z.of_nat (length body))); [|lia].
  simpl. rewrite firstn_app.
  replace (Z.to_nat n - length body)%nat with 0%nat by lia.
  simpl. rewrite app_nil_r. reflexivity.
Qed.

(** X16.  [operator<<] writes the bytes before the terminator and not
    the terminator.  For a string whose body has no NUL and a [size_t]
    length, [operator<<] on the array [body, NUL, ...] gives what
    [write(body, |body|)] gives. *)
Theorem insert_string_writes_body bits o body rest :
  no_nul body -> is_size bits (Z.of_nat (length body)) ->
  operator_shl bits o (body ++ x00 :: rest)
  = write bits o body (Z.of_nat (length body)).
Proof.
  intros Hbody Hsize. unfold operator_shl.
  rewrite strlen_body by assumption. size_small.
  unfold write, sputn. cbv zeta.
  set (b1 := check_for_dump (_obuf o)).
  pose proof (to_size_range bits (_capacity b1 - _putpos b1)) as [Hr _].
  rewrite copy_in_source_prefix; [reflexivity|].
  destruct (min_spec (to_size bits (_capacity b1 - _putpos b1))
              (Z.of_nat (length body))) as [[? ->]|[? ->]]; lia.
Qed.

Lemma insert_string_writes_body_witness :
  operator_shl 16 {| _obuf := sample_fresh; _oerror := streamerr_ctor |}
               [x48; x69; x00; x21]
  = write 16 {| _obuf := sample_fresh; _oerror := streamerr_ctor |}
          [x48; x69] 2.
Proof.
  apply (insert_string_writes_body 16
           {| _obuf := sample_fresh; _oerror := streamerr_ctor |}
           [x48; x69] [x21]).
  - repeat constructor; discriminate.
  - size_lit.
Defined.

(** X17.  Writing to a stream that was never given storage.  When the
    stream's buffer is reachable with null storage and capacity 0 (as the
    constructor leaves it), [write] of [n > 0] bytes and [put] store
    nothing and leave both [overflow] and [uninitialized] set in the
    stream's register [_oerror]. *)
Theorem unbound_stream_reports_both bits o s n c :
  reachable bits (_obuf o) -> _buf (_obuf o) = None ->
  _capacity (_obuf o) = 0 -> is_size bits n -> 0 < n ->
  (exists o',
     write bits o s n = Some o'
     /\ overflow (_oerror o') = true /\ uninitialized (_oerror o') = true
     /\ in_avail bits (_obuf o') = 0)
  /\ (exists o',
        put bits o c = Some o'
        /\ overflow (_oerror o') = true /\ uninitialized (_oerror o') = true
        /\ in_avail bits (_obuf o') = 0).
Proof.
  intros Hr Hb Hc Hn Hpos.
  destruct (uio_unbound_writes bits (_obuf o) Hr Hb Hc) as [Hputc Hputn].
  split.
  - destruct (Hputn s n Hn) as (b' & Hw & Hb' & Hu).
    assert (Hinv : inv bits b').
    { apply (sputn_inv bits (_obuf o) s n 0 b'); auto.
      now apply reachable_inv. }
    unfold write. rewrite Hw.
    destruct (Z.eqb_spec n 0); [lia|].
    eexists. split; [reflexivity|]. simpl. rewrite Hu.
    split; [reflexivity|]. split; [apply orb_true_r|].
    split_inv Hinv. destruct (Hnull Hb') as [Hp0 _].
    unfold in_avail. size_small. lia.
  - destruct (Hputc c) as (b' & Hw & Hb' & Hu).
    assert (Hinv : inv bits b').
    { apply (sputc_inv bits (_obuf o) c 0 b'); auto.
      now apply reachable_inv. }
    unfold put. rewrite Hw. simpl.
    eexists. split; [reflexivity|]. simpl. rewrite Hu.
    split; [reflexivity|]. split; [apply orb_true_r|].
    split_inv Hinv. destruct (Hnull Hb') as [Hp0 _].
    unfold in_avail. size_small. lia.
Qed.

Lemma unbound_stream_reports_both_witness :
  exists o',
    write 16 {| _obuf := streambuf_ctor; _oerror := streamerr_ctor |}
          [x41; x42] 2 = Some o'
    /\ overflow (_oerror o') = true /\ uninitialized (_oerror o') = true
    /\ in_avail 16 (_obuf o') = 0.
Proof.
  exact (proj1 (unbound_stream_reports_both 16
                  {| _obuf := streambuf_ctor; _oerror := streamerr_ctor |}
                  [x41; x42] 2 x00
                  (reach_ctor 16) eq_refl eq_refl
                  ltac:(size_lit) ltac:(lia))).
Defined.

(** *** [src/unnamed/part_001] *)

(** X18.  Writing to an unbound stream of [part_001].  Whenever the
    buffer's storage is null, whatever its capacity and cursors, [write]
    of [n > 0] bytes and [put] store nothing, leave the cursors alone, and
    set both [overflow] and [uninitialized] in the stream's register
    [_oerror]; the buffer's own register gets [uninitialized]. *)
Theorem part001_unbound_stream_reports_both bits
        (o : Part001.ostream) s n c :
  Part001._buf (Part001._obuf o) = None -> 0 < n ->
  let b' := Part001.raise_uninitialized (Part001._obuf o) in
  let e' := Part001.flag_overflow (Part001._oerror o) b' in
  Part001.write bits o s n
  = Some {| Part001._obuf := b'; Part001._oerror := e' |}
  /\ Part001.put bits o c
     = Some {| Part001._obuf := b'; Part001._oerror := e' |}
  /\ Part001.overflow e' = true /\ Part001.uninitialized e' = true
  /\ Part001._getpos b' = Part001._getpos (Part001._obuf o)
  /\ Part001._putpos b' = Part001._putpos (Part001._obuf o).
Proof.
  intros Hb Hn b' e'.
  unfold Part001.write, Part001.put, Part001.putn, Part001.putbyte.
  rewrite Hb. simpl.
  destruct (Z.eqb_spec n 0); [lia|]. simpl.
  repeat split. apply orb_true_r.
Qed.

Lemma part001_unbound_stream_reports_both_witness :
  exists o',
    Part001.write 16
      {| Part001._obuf := Part001.setbuf Part001.streambuf_ctor None 8;
         Part001._oerror := Part001.streamerr_ctor |} [x41] 1 = Some o'
    /\ Part001.overflow (Part001._oerror o') = true
    /\ Part001.uninitialized (Part001._oerror o') = true.
Proof.
  destruct (part001_unbound_stream_reports_both 16
              {| Part001._obuf := Part001.setbuf Part001.streambuf_ctor None 8;
                 Part001._oerror := Part001.streamerr_ctor |}
              [x41] 1 x00 eq_refl ltac:(lia))
    as (Hw & _ & Ho & Hu & _).
  eexists. split; [exact Hw|]. split; [exact Ho | exact Hu].
Defined.

Ltac split_inv1 H :=
  let Hc := fresh "Hcap" in let Hg := fresh "Hget" in
  let Hp := fresh "Hput" in let Hn := fresh "Hnull" in
  let Hs := fresh "Hstore" in
  destruct H as [Hc [Hg Hp] Hn Hs].

Lemma part001_exec_inv bits b o b' :
  Run001.inv bits b -> Run001.args_ok bits o ->
  Run001.exec bits b o = Some b' -> Run001.inv bits b'.
Proof.
  intros H Ha. pose proof H as H0. split_inv1 H0.
  assert (Hnone : Part001._buf b = None ->
                  Run001.inv bits (Part001.raise_uninitialized b)).
  { intros Eb. constructor; simpl; auto. }
  destruct o; simpl in *.
  - unfold Part001.getc. destruct (Part001._buf b) as [l|] eqn:Eb; simpl.
    + specialize (Hstore l eq_refl).
      destruct (Z.leb_spec (to_size bits (Part001._putpos b - Part001._getpos b)) 0).
      * intros [= <-]. exact H.
      * rewrite ?Eb. simpl. destruct (nth_error l _); simpl; [|discriminate].
        intros [= <-]. size_small.
        constructor; simpl; unfold is_size in *; rewrite ?Eb; try lia;
          try discriminate.
        intros ? [= <-]. lia.
    + intros [= <-]. auto.
  - unfold Part001.getn.
    destruct (Part001._buf b) as [l|] eqn:Eb; cbn [Mem.is_null].
    + specialize (Hstore l eq_refl).
      change Part001.min with Uio.min. size_small.
      rewrite ?Eb.
      destruct (Mem.copy_out s (Some l) _ _); simpl; [|discriminate].
      intros [= <-].
      destruct (min_spec (Part001._putpos b - Part001._getpos b) len)
        as [[? ->]|[? ->]]; size_small;
        (constructor; simpl; unfold is_size in *; rewrite ?Eb; try lia;
         try discriminate; intros ? [= <-]; lia).
    + intros [= <-]. auto.
  - unfold Part001.putbyte.
    destruct (Part001._buf b) as [l|] eqn:Eb; cbn [Mem.is_null].
    + specialize (Hstore l eq_refl).
      destruct (Z.leb_spec (to_size bits (Part001._capacity b - Part001._putpos b)) 0).
      * intros [= <-]. exact H.
      * rewrite ?Eb. size_small.
        destruct (Mem.store (Some l) (Part001._putpos b) c) as [m|] eqn:Es;
          simpl; [|discriminate].
        apply store_some in Es; [|lia].
        destruct Es as (l0 & l' & [= <-] & -> & Hlen & Hoff).
        intros [= <-]. size_small.
        constructor; simpl; unfold is_size in *; try lia; try discriminate.
        intros ? [= <-]. lia.
    + intros [= <-]. auto.
  - unfold Part001.putn.
    destruct (Part001._buf b) as [l|] eqn:Eb; cbn [Mem.is_null].
    + specialize (Hstore l eq_refl).
      change Part001.min with Uio.min. size_small.
      set (n := Uio.min (Part001._capacity b - Part001._putpos b) len).
      assert (Hn : 0 <= n <= Part001._capacity b - Part001._putpos b).
      { unfold n.
        destruct (min_spec (Part001._capacity b - Part001._putpos b) len)
          as [[? ->]|[? ->]]; unfold is_size in *; lia. }
      clearbody n. rewrite ?Eb.
      destruct (Mem.copy_in (Some l) (Part001._putpos b) s n) as [m|] eqn:Ec;
        simpl; [|discriminate].
      intros [= <-]. size_small.
      apply copy_in_some in Ec; try lia.
      destruct Ec as [[-> ->]|(l0 & l' & [= <-] & -> & Hl & Hoff)].
      * rewrite Z.add_0_r.
        constructor; simpl; unfold is_size in *; try lia; try discriminate.
        intros ? [= <-]. lia.
      * constructor; simpl; unfold is_size in *; try lia; try discriminate.
        intros ? [= <-]. lia.
    + intros [= <-]. auto.
  - intros [= <-]. constructor; simpl; unfold is_size in *; try lia; auto.
  - intros [= <-]. constructor; simpl; unfold is_size in *; try lia; auto.
Qed.

Lemma part001_reachable_inv bits b :
  Run001.reachable bits b -> Run001.inv bits b.
Proof.
  induction 1 as [|b o b' _ IH Ha He].
  - pose proof (size_modulus_pos bits).
    constructor; simpl; unfold is_size; try lia; auto; discriminate.
  - exact (part001_exec_inv bits b o b' IH Ha He).
Qed.

Lemma part001_run_reachable bits os : forall b b',
  Run001.reachable bits b -> Forall (Run001.args_ok bits) os ->
  Run001.run bits b os = Some b' -> Run001.reachable bits b'.
Proof.
  induction os as [|o os IH]; simpl; intros b b' Hr Ha.
  - now intros [= <-].
  - inversion Ha as [|? ? Ho Hos]; subst.
    destruct (Run001.exec bits b o) as [b1|] eqn:E; [|discriminate].
    intros Hrun. apply (IH b1 b'); auto.
    now apply (Run001.reach_step bits b o b1).
Qed.

(** X19.  Cursor ordering in [part_001].  In every state that a run of
    [getc], [getn], [putbyte], [putn], [clear] and [setbuf] reaches from
    the constructed object, [0 <= _getpos <= _putpos <= _capacity], and
    [_putpos] is 0 while the storage is null. *)
Theorem part001_cursor_ordering bits b :
  Run001.reachable bits b ->
  0 <= Part001._getpos b /\ Part001._getpos b <= Part001._putpos b
  /\ Part001._putpos b <= Part001._capacity b
  /\ (Part001._buf b = None -> Part001._putpos b = 0).
Proof.
  intros H. apply part001_reachable_inv in H. split_inv1 H.
  repeat split; auto; lia.
Qed.

Lemma sample001_drained_reachable : Run001.reachable 16 sample001_drained.
Proof.
  apply (part001_run_reachable 16
           [Run001.Setbuf (Some [x00; x00; x00; x00]) 4;
            Run001.Putn [x41; x42; x43; x44] 4;
            Run001.Getn [x00; x00; x00; x00] 4]
           Part001.streambuf_ctor).
  - apply Run001.reach_ctor.
  - repeat constructor; cbv [Run001.args_ok is_size size_modulus]; simpl; lia.
  - vm_compute. reflexivity.
Qed.

Lemma part001_cursor_ordering_witness :
  0 <= Part001._getpos sample001_drained
  /\ Part001._getpos sample001_drained <= Part001._putpos sample001_drained
  /\ Part001._putpos sample001_drained <= Part001._capacity sample001_drained
  /\ (Part001._buf sample001_drained = None ->
      Part001._putpos sample001_drained = 0).
Proof.
  exact (part001_cursor_ordering 16 sample001_drained
           sample001_drained_reachable).
Defined.



(** X21.  Line extraction in [part_001].  On a stream whose buffer is
    reachable, with a destination of more than [in_avail()] bytes,
    [operator>>] copies the queued bytes, stores a NUL behind them and
    leaves the queue empty and the stream's register [_ierror] as it was:
    its check of the count never fires, whether or not storage is
    bound. *)
Theorem part001_extract_line bits (i : Part001.istream) s :
  Run001.reachable bits (Part001._ibuf i) ->
  Part001.in_avail bits (Part001._ibuf i) < Z.of_nat (length s) ->
  let n := Part001.in_avail bits (Part001._ibuf i) in
  exists b',
    Part001.operator_shr bits i s
    = Some (Run001.contents bits (Part001._ibuf i)
            ++ x00 :: skipn (Z.to_nat (n + 1)) s,
            {| Part001._ibuf := b'; Part001._ierror := Part001._ierror i |})
    /\ Part001.in_avail bits b' = 0
    /\ Z.of_nat (length (Run001.contents bits (Part001._ibuf i))) = n.
Proof.
  intros Hr Hs n. subst n.
  pose proof (part001_reachable_inv bits _ Hr) as Hinv. split_inv1 Hinv.
  unfold Part001.operator_shr, Part001.getn, Run001.contents,
    Part001.in_avail in *.
  set (b := Part001._ibuf i) in *. size_small.
  destruct (Part001._buf b) as [l|] eqn:Eb; cbn [Mem.is_null].
  - specialize (Hstore l eq_refl).
    set (n := Part001._putpos b - Part001._getpos b) in *.
    change Part001.min with Uio.min.
    destruct (min_spec n n) as [[? _]|[_ ->]]; [lia|].
    rewrite copy_out_ok by (unfold n in *; lia).
    rewrite Z.eqb_refl. cbn [negb].
    rewrite poke_after;
      [|rewrite length_firstn, length_skipn; unfold n in *; lia|lia].
    eexists. split; [reflexivity|]. simpl.
    replace (to_size bits (Part001._getpos b + n)) with (Part001._putpos b)
      by (unfold n; size_small; lia).
    rewrite Z.sub_diag, to_size_0.
    split; [reflexivity|].
    rewrite length_firstn, length_skipn. unfold n in *. lia.
  - pose proof (Hnull eq_refl) as Hp0.
    assert (Hg0 : Part001._getpos b = 0) by lia.
    rewrite Hp0, Hg0 in *. simpl in *.
    unfold Mem.poke. destruct (Z.ltb_spec 0 (Z.of_nat (length s))); [|lia].
    eexists. split; [reflexivity|]. simpl. rewrite Hp0, Hg0. auto.
Qed.

Lemma part001_extract_line_witness :
  exists b',
    Part001.operator_shr 16
      {| Part001._ibuf := sample001_full;
         Part001._ierror := Part001.streamerr_ctor |}
      [xff; xff; xff; xff; xff; xff]
    = Some ([x41; x42; x43; x44; x00; xff],
            {| Part001._ibuf := b';
               Part001._ierror := Part001.streamerr_ctor |})
    /\ Part001.in_avail 16 b' = 0.
Proof.
  assert (Hr : Run001.reachable 16 sample001_full).
  { apply (part001_run_reachable 16
             [Run001.Setbuf (Some [x00; x00; x00; x00]) 4;
              Run001.Putn [x41; x42; x43; x44] 4]
             Part001.streambuf_ctor).
    - apply Run001.reach_ctor.
    - repeat constructor;
        cbv [Run001.args_ok is_size size_modulus]; simpl; lia.
    - vm_compute. reflexivity. }
  destruct (part001_extract_line 16
              {| Part001._ibuf := sample001_full;
                 Part001._ierror := Part001.streamerr_ctor |}
              [xff; xff; xff; xff; xff; xff] Hr
              ltac:(vm_compute; reflexivity))
    as (b' & Hop & Hz & _).
  exists b'. split; [exact Hop | exact Hz].
Defined.

(** *** Counts *)

(** X22.  The counts stay within the capacity.  On a reachable buffer,
    [in_avail()] is [_putpos - _getpos] without wrap-around, it is the
    number of queued bytes, and [0 <= in_avail() <= size() <= _capacity];
    when storage is bound, [size()] does not exceed the length of the
    borrowed array either. *)
Theorem counts_within_capacity bits b :
  reachable bits b ->
  in_avail bits b = _putpos b - _getpos b
  /\ Z.of_nat (length (contents bits b)) = in_avail bits b
  /\ 0 <= in_avail bits b <= size b
  /\ size b <= _capacity b
  /\ (forall l, _buf b = Some l -> size b <= Z.of_nat (length l)).
Proof.
  intros Hr. pose proof (reachable_inv bits b Hr) as Hinv.
  pose proof (contents_length bits b Hinv) as Hlen.
  split_inv Hinv. unfold in_avail, size in *. size_small.
  repeat split; auto; lia.
Qed.

Lemma counts_within_capacity_witness :
  in_avail 16 sample_half = 2 /\ size sample_half = 2
  /\ length (contents 16 sample_half) = 2%nat.
Proof.
  destruct (counts_within_capacity 16 sample_half sample_half_reachable)
    as (Ha & Hl & _).
  split; [exact Ha|]. split; [reflexivity|].
  apply Nat2Z.inj. rewrite Hl. exact Ha.
Defined.

(** X23.  [purge()] gives the whole capacity back.  After [purge()] on a
    reachable buffer with enough storage, whether or not a rewind was
    pending, [sputn] of [len] bytes returns [min(_capacity, len)] and the
    queue is then exactly those bytes of [s]. *)
Theorem purge_then_sputn bits b s len :
  reachable bits b -> bound b ->
  is_size bits len -> len <= Z.of_nat (length s) ->
  let n := Uio.min (_capacity b) len in
  exists b',
    sputn bits (snd (purge bits b)) s len = Some (n, b')
    /\ contents bits b' = firstn (Z.to_nat n) s
    /\ in_avail bits b' = n.
Proof.
  intros Hr Hb Hlen Hs n.
  assert (Hr' : reachable bits (snd (purge bits b))).
  { now apply (reach_step bits b Purge). }
  assert (Hb' : bound (snd (purge bits b))).
  { destruct Hb as (l & Hl & Hcap). exists l. auto. }
  destruct (sputn_queue bits _ s len Hr' Hb' Hlen Hs)
    as (b' & Hw & Hc & Hn & _).
  assert (Hroom : _capacity (snd (purge bits b))
                  - (if _dump (snd (purge bits b)) then 0
                     else _putpos (snd (purge bits b))) = _capacity b).
  { simpl. destruct (_dump b); lia. }
  rewrite Hroom in *. fold n in Hw, Hc, Hn.
  assert (Hq : (if _dump (snd (purge bits b)) then []
                else contents bits (snd (purge bits b))) = []).
  { simpl. destruct (_dump b); [reflexivity|].
    unfold contents, in_avail; simpl. rewrite ?to_size_0.
    destruct (_buf b); reflexivity. }
  rewrite Hq in Hc. simpl in Hc.
  exists b'. split; [exact Hw|]. split; [exact Hc|].
  assert (Hinv : inv bits b').
  { apply (sputn_inv bits (snd (purge bits b)) s len n b'); auto.
    now apply reachable_inv. }
  rewrite <- (contents_length bits b' Hinv), Hc, length_firstn. lia.
Qed.

Lemma purge_then_sputn_witness :
  exists b',
    sputn 16 (snd (purge 16 sample_full)) [x45; x46] 2 = Some (2, b')
    /\ contents 16 b' = [x45; x46]
    /\ in_avail 16 b' = 2.
Proof.
  exact (purge_then_sputn 16 sample_full [x45; x46] 2
           sample_full_reachable sample_full_bound
           ltac:(size_lit) ltac:(simpl; lia)).
Defined.
